(** * The debounce controller of [src/app.ts]

A shallow embedding of the [debounce] function: its construction-time
coercions, the closure state it keeps, the host's timer table it
schedules callbacks in, and the operations [debounced], [cancel],
[flush], [pending] and the timer callback [timerExpired]. *)

From Stdlib Require Import ZArith List Bool String Lia.
Import ListNotations.
Local Open Scope Z_scope.

(** ** JavaScript values, as far as [debounce] inspects them *)

Module Js.

(** Numbers: the millisecond values the controller computes with are
  integers; [NaN] is what arithmetic on [undefined] produces. *)
Inductive num : Type :=
| NaN
  | Num (z : Z).

(** [a - b] *)
Definition sub (a b : num) : num :=
  match a, b with
  | Num x, Num y => Num (x - y)
  | _, _ => NaN
  end.

(** [Math.min(a, b)] and [Math.max(a, b)] *)
Definition min (a b : num) : num :=
  match a, b with
  | Num x, Num y => Num (Z.min x y)
  | _, _ => NaN
  end.

Definition max (a b : num) : num :=
  match a, b with
  | Num x, Num y => Num (Z.max x y)
  | _, _ => NaN
  end.

(** [a >= b] and [a < b]: every comparison with [NaN] is false. *)
Definition geb (a b : num) : bool :=
  match a, b with
  | Num x, Num y => y <=? x
  | _, _ => false
  end.

Definition ltb (a b : num) : bool :=
  match a, b with
  | Num x, Num y => x <? y
  | _, _ => false
  end.

(** [n || 0] on a number: [NaN] and [0] are falsy. *)
Definition or_zero (n : num) : Z :=
  match n with
  | NaN => 0
  | Num z => z
  end.

(** An [undefined]-or-number variable used in arithmetic. *)
Definition of_option (o : option Z) : num :=
  match o with
  | Some z => Num z
  | None => NaN
  end.

(** What a statement throws: a [TypeError], or whatever else the code of
    an object threw while it was converted. *)
Inductive exn : Type :=
| TypeError (msg : string)
| Thrown (what : string).

Section Values.
(** What a function value does when applied. *)
Variable Fn : Type.

#[warnings="-register-all"]
Inductive value : Type :=
| JUndefined
| JNull
| JBool (b : bool)
| JNumber (n : num)
| JString (s : string)
| JSymbol
| JBigInt (z : Z)
| JFunction (f : Fn)
| JObject (props : list (string * value)).

(** [typeof v === 'function'] *)
Definition is_function (v : value) : bool :=
  match v with
  | JFunction _ => true
  | _ => false
  end.

(** [!!v] *)
Definition ToBoolean (v : value) : bool :=
  match v with
  | JUndefined | JNull => false
  | JBool b => b
  | JNumber NaN => false
  | JNumber (Num z) => negb (z =? 0)
  | JString s => negb (String.eqb s EmptyString)
  | JSymbol => true
  | JBigInt z => negb (z =? 0)
  | JFunction _ | JObject _ => true
  end.

(** [v !== 0] *)
Definition strict_neq_zero (v : value) : bool :=
  match v with
  | JNumber (Num 0) => false
  | _ => true
  end.

(** The language's conversion of a string to a number, for the
    strings that are not empty. *)
Variable StringToNumber : string -> num.

(** The conversion of an object or a function to a number: it runs the
    object's own [Symbol.toPrimitive], [valueOf] or [toString], so it may
    return any number or throw anything. *)
Variable ObjectToNumber : value -> exn + num.

(** [+v]: symbols and bigints are not converted, the conversion throws;
    an object or a function is converted by its own code. *)
Definition ToNumber (v : value) : exn + num :=
  match v with
  | JUndefined => inr NaN
  | JNull => inr (Num 0)
  | JBool b => inr (Num (if b then 1 else 0))
  | JNumber n => inr n
  | JString s =>
      inr (if String.eqb s EmptyString then Num 0 else StringToNumber s)
  | JSymbol => inl (TypeError "Cannot convert a Symbol value to a number")
  | JBigInt _ => inl (TypeError "Cannot convert a BigInt value to a number")
  | JFunction _ | JObject _ => ObjectToNumber v
  end.

Fixpoint lookup (k : string) (props : list (string * value)) : option value :=
  match props with
  | [] => None
  | (k', v) :: rest => if String.eqb k k' then Some v else lookup k rest
  end.

(** [k in o] *)
Definition has (k : string) (o : value) : bool :=
  match o with
  | JObject props =>
      match lookup k props with Some _ => true | None => false end
  | _ => false
  end.

(** [o.k] on a value that passed [isObject] *)
Definition get (k : string) (o : value) : value :=
  match o with
  | JObject props =>
      match lookup k props with Some v => v | None => JUndefined end
  | _ => JUndefined
  end.

(** Modelled from the spec: the imported helper [isObject] (the file
    [isObject.js] is not part of the sources), which checks that an
    options object is present before its fields are read: true of
    objects and functions, false of [null] and the primitives. *)
Definition isObject (v : value) : bool :=
  match v with
  | JObject _ | JFunction _ => true
  | _ => false
  end.

End Values.

Arguments JUndefined {Fn}.
Arguments JNull {Fn}.
Arguments JBool {Fn} b.
Arguments JNumber {Fn} n.
Arguments JString {Fn} s.
Arguments JSymbol {Fn}.
Arguments JBigInt {Fn} z.
Arguments JFunction {Fn} f.
Arguments JObject {Fn} props.
Arguments is_function {Fn} v.
Arguments ToBoolean {Fn} v.
Arguments strict_neq_zero {Fn} v.
Arguments ToNumber {Fn} StringToNumber ObjectToNumber v.
Arguments lookup {Fn} k props.
Arguments has {Fn} k o.
Arguments get {Fn} k o.
Arguments isObject {Fn} v.

End Js.

(** ** The controller *)

Module Debounce.
Import Js.

Section Controller.

(** The arguments array of a call, its [this] and what the wrapped
    function returns. *)
Variables Args Ctx Res : Type.

(** [func.apply(thisArg, args)]: both may be [undefined]. *)
Definition action : Type := option Ctx -> option Args -> Res.

(** The variables of the closure that are fixed once [debounce] has
    returned. *)
Record config : Type := Config {
  func : action;
  wait : Z;
  maxWait : option Z;
  leading : bool;
  maxing : bool;
  trailing : bool;
  useRAF : bool
}.

(** *** Construction *)

Section Construction.

Variable StringToNumber : string -> num.
Variable ObjectToNumber : value action -> exn + num.

(** [typeof root.requestAnimationFrame === 'function'] *)
Variable hasRAF : bool.

Definition bind_exn {A B : Type} (m : exn + A) (k : A -> exn + B) : exn + B :=
  match m with
  | inl e => inl e
  | inr a => k a
  end.

(** The body of [debounce] up to the definitions of the inner functions. *)
Definition debounce (func wait options : value action) : exn + config :=
  let useRAF := negb (ToBoolean wait) && strict_neq_zero wait && hasRAF in
  match func with
  | JFunction f =>
      bind_exn (ToNumber StringToNumber ObjectToNumber wait) (fun w =>
      let wait := or_zero w in
      if isObject options then
        let leading := ToBoolean (get "leading" options) in
        let maxing := has "maxWait" options in
        bind_exn
          (if maxing
           then bind_exn
                  (ToNumber StringToNumber ObjectToNumber
                     (get "maxWait" options))
                  (fun m => inr (Some (Z.max (or_zero m) wait)))
           else inr None)
          (fun maxWait =>
        let trailing :=
          if has "trailing" options
          then ToBoolean (get "trailing" options)
          else true in
        inr (Config f wait maxWait leading maxing trailing useRAF))
      else
        inr (Config f wait None false false true useRAF))
  | _ => inl (TypeError "Expected a function")
  end.

End Construction.

(** *** The host's timers *)

Inductive timer_kind : Type :=
| Timeout (delay : num)
| Frame.

(** A scheduled callback. The callback itself is not recorded: the
    controller only ever schedules [timerExpired]. [set_at] is the time at
    which the timer was set. *)
Record timer : Type := Timer {
  handle : nat;
  kind : timer_kind;
  set_at : Z
}.

(** *** The closure state *)

(** The mutable variables of the closure, the host's table of live timers
    with its next free handle, and the log of the executions of [func]:
    time, [this] and arguments of each. *)
Record state : Type := State {
  lastArgs : option Args;
  lastThis : option Ctx;
  result : option Res;
  timerId : option nat;
  lastCallTime : option Z;
  lastInvokeTime : Z;
  timers : list timer;
  next_handle : nat;
  invocations : list (Z * option Ctx * option Args)
}.

Definition init : state :=
  State None None None None None 0 [] 0%nat [].

Definition set_lastArgs (v : option Args) (s : state) : state :=
  State v (lastThis s) (result s) (timerId s) (lastCallTime s)
    (lastInvokeTime s) (timers s) (next_handle s) (invocations s).

Definition set_lastThis (v : option Ctx) (s : state) : state :=
  State (lastArgs s) v (result s) (timerId s) (lastCallTime s)
    (lastInvokeTime s) (timers s) (next_handle s) (invocations s).

Definition set_result (v : option Res) (s : state) : state :=
  State (lastArgs s) (lastThis s) v (timerId s) (lastCallTime s)
    (lastInvokeTime s) (timers s) (next_handle s) (invocations s).

Definition set_timerId (v : option nat) (s : state) : state :=
  State (lastArgs s) (lastThis s) (result s) v (lastCallTime s)
    (lastInvokeTime s) (timers s) (next_handle s) (invocations s).

Definition set_lastCallTime (v : option Z) (s : state) : state :=
  State (lastArgs s) (lastThis s) (result s) (timerId s) v
    (lastInvokeTime s) (timers s) (next_handle s) (invocations s).

Definition set_lastInvokeTime (v : Z) (s : state) : state :=
  State (lastArgs s) (lastThis s) (result s) (timerId s) (lastCallTime s)
    v (timers s) (next_handle s) (invocations s).

Definition set_timers (v : list timer) (s : state) : state :=
  State (lastArgs s) (lastThis s) (result s) (timerId s) (lastCallTime s)
    (lastInvokeTime s) v (next_handle s) (invocations s).

Definition set_next_handle (v : nat) (s : state) : state :=
  State (lastArgs s) (lastThis s) (result s) (timerId s) (lastCallTime s)
    (lastInvokeTime s) (timers s) v (invocations s).

Definition set_invocations (v : list (Z * option Ctx * option Args))
  (s : state) : state :=
  State (lastArgs s) (lastThis s) (result s) (timerId s) (lastCallTime s)
    (lastInvokeTime s) (timers s) (next_handle s) v.

(** Statements that read and write the closure state. *)
Definition M (A : Type) : Type := state -> A * state.

Definition ret {A : Type} (a : A) : M A := fun s => (a, s).

Definition bind {A B : Type} (m : M A) (k : A -> M B) : M B :=
  fun s => let (a, s') := m s in k a s'.

Definition gets {A : Type} (f : state -> A) : M A := fun s => (f s, s).

Definition modify (f : state -> state) : M unit := fun s => (tt, f s).

Notation "x <- m ;; k" := (bind m (fun x => k))
  (at level 61, m at next level, right associativity).
Notation "m ;; k" := (bind m (fun _ => k))
  (at level 61, right associativity).

(** *** Host primitives *)

Definition is_timeout (k : timer_kind) : bool :=
  match k with
  | Timeout _ => true
  | Frame => false
  end.

Definition has_handle (id : nat) (tm : timer) : bool :=
  Nat.eqb (handle tm) id.

(** [setTimeout(timerExpired, delay)] at time [now] *)
Definition setTimeout (now : Z) (delay : num) : M nat :=
  fun s =>
    let h := next_handle s in
    (h, set_next_handle (S h)
          (set_timers (timers s ++ [Timer h (Timeout delay) now]) s)).

(** [requestAnimationFrame(timerExpired)] at time [now] *)
Definition requestAnimationFrame (now : Z) : M nat :=
  fun s =>
    let h := next_handle s in
    (h, set_next_handle (S h)
          (set_timers (timers s ++ [Timer h Frame now]) s)).

(** [clearTimeout(id)]; nothing happens when [id] is [undefined] or names
    no live timeout. *)
Definition clearTimeout (id : option nat) : M unit :=
  match id with
  | Some h =>
      modify (fun s =>
        set_timers
          (filter (fun tm => negb (has_handle h tm && is_timeout (kind tm)))
             (timers s)) s)
  | None => ret tt
  end.

(** [cancelAnimationFrame(id)] *)
Definition cancelAnimationFrame (id : option nat) : M unit :=
  match id with
  | Some h =>
      modify (fun s =>
        set_timers
          (filter
             (fun tm => negb (has_handle h tm && negb (is_timeout (kind tm))))
             (timers s)) s)
  | None => ret tt
  end.

(** *** The inner functions of [debounce] *)

Variable c : config.

Definition is_some {A : Type} (o : option A) : bool :=
  match o with
  | Some _ => true
  | None => false
  end.

Definition invokeFunc (time : Z) : M (option Res) :=
  args <- gets lastArgs ;;
  thisArg <- gets lastThis ;;
  modify (set_lastThis None) ;;
  modify (set_lastArgs None) ;;
  modify (set_lastInvokeTime time) ;;
  let r := func c thisArg args in
  modify (fun s => set_invocations (invocations s ++ [(time, thisArg, args)]) s) ;;
  modify (set_result (Some r)) ;;
  gets result.

(** [startTimer(timerExpired, wait)], called at time [now] *)
Definition startTimer (now : Z) (wait : num) : M nat :=
  if useRAF c then
    id <- gets timerId ;;
    cancelAnimationFrame id ;;
    requestAnimationFrame now
  else
    setTimeout now wait.

Definition cancelTimer (id : nat) : M unit :=
  if useRAF c then cancelAnimationFrame (Some id) else clearTimeout (Some id).

Definition leadingEdge (time : Z) : M (option Res) :=
  modify (set_lastInvokeTime time) ;;
  h <- startTimer time (Num (wait c)) ;;
  modify (set_timerId (Some h)) ;;
  if leading c then invokeFunc time else gets result.

Definition remainingWait (s : state) (time : Z) : num :=
  let timeSinceLastCall := sub (Num time) (of_option (lastCallTime s)) in
  let timeSinceLastInvoke := sub (Num time) (Num (lastInvokeTime s)) in
  let timeWaiting := sub (Num (wait c)) timeSinceLastCall in
  if maxing c
  then min timeWaiting (sub (of_option (maxWait c)) timeSinceLastInvoke)
  else timeWaiting.

Definition shouldInvoke (s : state) (time : Z) : bool :=
  let timeSinceLastCall := sub (Num time) (of_option (lastCallTime s)) in
  let timeSinceLastInvoke := sub (Num time) (Num (lastInvokeTime s)) in
  negb (is_some (lastCallTime s))
  || geb timeSinceLastCall (Num (wait c))
  || ltb timeSinceLastCall (Num 0)
  || (maxing c && geb timeSinceLastInvoke (of_option (maxWait c))).

(** [lastArgs] holds an array when it is defined, and every array is
    truthy. *)
Definition trailingEdge (time : Z) : M (option Res) :=
  modify (set_timerId None) ;;
  args <- gets lastArgs ;;
  if trailing c && is_some args then invokeFunc time
  else
    modify (set_lastThis None) ;;
    modify (set_lastArgs None) ;;
    gets result.

(** The callback of every timer; [time] is what [Date.now()] returns. *)
Definition timerExpired (time : Z) : M (option Res) :=
  invoking <- gets (fun s => shouldInvoke s time) ;;
  if invoking then trailingEdge time
  else
    w <- gets (fun s => remainingWait s time) ;;
    h <- startTimer time w ;;
    modify (set_timerId (Some h)) ;;
    ret None.

Definition cancel : M unit :=
  id <- gets timerId ;;
  match id with
  | Some h => cancelTimer h
  | None => ret tt
  end ;;
  modify (set_lastInvokeTime 0) ;;
  modify (set_timerId None) ;;
  modify (set_lastThis None) ;;
  modify (set_lastCallTime None) ;;
  modify (set_lastArgs None).

(** [time] is what [Date.now()] returns; it is only read when a timer is
    scheduled. *)
Definition flush (time : Z) : M (option Res) :=
  id <- gets timerId ;;
  match id with
  | None => gets result
  | Some _ => trailingEdge time
  end.

Definition pending : M bool :=
  id <- gets timerId ;;
  ret (is_some id).

(** The last statements of [debounced], reached when the call returned
    from neither branch of [if (isInvoking)]. *)
Definition debounced_rest (time : Z) : M (option Res) :=
  id <- gets timerId ;;
  match id with
  | None =>
      h <- startTimer time (Num (wait c)) ;;
      modify (set_timerId (Some h))
  | Some _ => ret tt
  end ;;
  gets result.

(** [debounced.apply(this, args)] when [Date.now()] returns [time] *)
Definition debounced (this : Ctx) (args : Args) (time : Z) : M (option Res) :=
  isInvoking <- gets (fun s => shouldInvoke s time) ;;
  modify (set_lastArgs (Some args)) ;;
  modify (set_lastThis (Some this)) ;;
  modify (set_lastCallTime (Some time)) ;;
  if isInvoking then
    id <- gets timerId ;;
    match id with
    | None => leadingEdge time
    | Some _ =>
        if maxing c then
          h <- startTimer time (Num (wait c)) ;;
          modify (set_timerId (Some h)) ;;
          invokeFunc time
        else debounced_rest time
    end
  else debounced_rest time.

(** *** The event loop *)

Definition live (h : nat) (s : state) : bool :=
  existsb (has_handle h) (timers s).

(** The host runs the callback of the live timer [h]: the timer leaves
    the table, then [timerExpired] runs. *)
Definition fire (h : nat) (time : Z) : M (option Res) :=
  fun s =>
    if live h s then
      timerExpired time
        (set_timers (filter (fun tm => negb (has_handle h tm)) (timers s)) s)
    else (None, s).

(** What can happen to a controller. *)
Inductive event : Type :=
| Call (this : Ctx) (args : Args) (time : Z)
| Fire (h : nat) (time : Z)
| Cancel
| Flush (time : Z)
| Pending.

Definition step (s : state) (e : event) : state :=
  match e with
  | Call this args time => snd (debounced this args time s)
  | Fire h time => snd (fire h time s)
  | Cancel => snd (cancel s)
  | Flush time => snd (flush time s)
  | Pending => snd (pending s)
  end.

Definition run (es : list event) (s : state) : state :=
  fold_left step es s.

Definition reachable (s : state) : Prop :=
  exists es : list event, s = run es init.

(** *** A punctual host

    Timers that fire exactly when they are due, the earliest first, and
    before a call made at the same time. *)

(** Milliseconds until the next frame is drawn. *)
Variable frame : Z.

Definition due (tm : timer) : Z :=
  match kind tm with
  | Timeout delay => set_at tm + Z.max 0 (or_zero delay)
  | Frame => set_at tm + frame
  end.

Fixpoint next_due (ts : list timer) : option timer :=
  match ts with
  | [] => None
  | tm :: rest =>
      match next_due rest with
      | Some tm' => if due tm' <? due tm then Some tm' else Some tm
      | None => Some tm
      end
  end.

Definition due_by (limit : option Z) (tm : timer) : bool :=
  match limit with
  | Some l => due tm <=? l
  | None => true
  end.

(** Fire what is due by [limit] ([None]: whatever is scheduled), at most
    [fuel] timers. *)
Fixpoint settle (fuel : nat) (limit : option Z) (s : state) : option state :=
  match next_due (timers s) with
  | None => Some s
  | Some tm =>
      if due_by limit tm then
        match fuel with
        | O => None
        | S fuel' => settle fuel' limit (snd (fire (handle tm) (due tm) s))
        end
      else Some s
  end.

(** A burst of calls, then quiet until no timer is left. *)
Fixpoint run_burst (fuel : nat) (calls : list (Ctx * Args * Z)) (s : state)
  : option state :=
  match calls with
  | [] => settle fuel None s
  | (this, args, time) :: rest =>
      match settle fuel (Some time) s with
      | Some s' => run_burst fuel rest (snd (debounced this args time s'))
      | None => None
      end
  end.

(** Consecutive calls are less than [w] apart, and the clock does not go
    backward. *)
Fixpoint spaced (w : Z) (calls : list (Ctx * Args * Z)) : Prop :=
  match calls with
  | (_, _, t1) :: (((_, _, t2) :: _) as rest) =>
      0 <= t2 - t1 < w /\ spaced w rest
  | _ => True
  end.

End Controller.

Arguments Config {Args Ctx Res}.
Arguments func {Args Ctx Res}.
Arguments wait {Args Ctx Res}.
Arguments maxWait {Args Ctx Res}.
Arguments leading {Args Ctx Res}.
Arguments maxing {Args Ctx Res}.
Arguments trailing {Args Ctx Res}.
Arguments useRAF {Args Ctx Res}.
Arguments debounce {Args Ctx Res}.
Arguments State {Args Ctx Res}.
Arguments lastArgs {Args Ctx Res}.
Arguments lastThis {Args Ctx Res}.
Arguments result {Args Ctx Res}.
Arguments timerId {Args Ctx Res}.
Arguments lastCallTime {Args Ctx Res}.
Arguments lastInvokeTime {Args Ctx Res}.
Arguments timers {Args Ctx Res}.
Arguments next_handle {Args Ctx Res}.
Arguments invocations {Args Ctx Res}.
Arguments init {Args Ctx Res}.
Arguments set_lastArgs {Args Ctx Res}.
Arguments set_lastThis {Args Ctx Res}.
Arguments set_result {Args Ctx Res}.
Arguments set_timerId {Args Ctx Res}.
Arguments set_lastCallTime {Args Ctx Res}.
Arguments set_lastInvokeTime {Args Ctx Res}.
Arguments set_timers {Args Ctx Res}.
Arguments set_next_handle {Args Ctx Res}.
Arguments set_invocations {Args Ctx Res}.
Arguments ret {Args Ctx Res}.
Arguments bind {Args Ctx Res}.
Arguments gets {Args Ctx Res}.
Arguments modify {Args Ctx Res}.
Arguments setTimeout {Args Ctx Res}.
Arguments requestAnimationFrame {Args Ctx Res}.
Arguments clearTimeout {Args Ctx Res}.
Arguments cancelAnimationFrame {Args Ctx Res}.
Arguments invokeFunc {Args Ctx Res}.
Arguments startTimer {Args Ctx Res}.
Arguments cancelTimer {Args Ctx Res}.
Arguments leadingEdge {Args Ctx Res}.
Arguments remainingWait {Args Ctx Res}.
Arguments shouldInvoke {Args Ctx Res}.
Arguments trailingEdge {Args Ctx Res}.
Arguments timerExpired {Args Ctx Res}.
Arguments cancel {Args Ctx Res}.
Arguments flush {Args Ctx Res}.
Arguments pending {Args Ctx Res}.
Arguments debounced_rest {Args Ctx Res}.
Arguments debounced {Args Ctx Res}.
Arguments live {Args Ctx Res}.
Arguments fire {Args Ctx Res}.
Arguments step {Args Ctx Res}.
Arguments run {Args Ctx Res}.
Arguments reachable {Args Ctx Res}.
Arguments settle {Args Ctx Res}.
Arguments run_burst {Args Ctx Res}.
Arguments Call {Args Ctx}.
Arguments Fire {Args Ctx}.
Arguments Cancel {Args Ctx}.
Arguments Flush {Args Ctx}.
Arguments Pending {Args Ctx}.
Arguments spaced {Args Ctx}.

(** *** Notions used in the statements *)

(** The configurations [debounce] can return. *)
Definition constructed {Args Ctx Res : Type} (c : config Args Ctx Res) : Prop :=
  exists (StringToNumber : string -> num)
         (ObjectToNumber : value (action Args Ctx Res) -> exn + num)
         (hasRAF : bool)
         (func wait options : value (action Args Ctx Res)),
    debounce StringToNumber ObjectToNumber hasRAF func wait options = inr c.

(** The values unary plus converts by itself, with no code of an object
    involved, and without throwing. *)
Definition plain_primitive {Fn : Type} (v : value Fn) : bool :=
  match v with
  | JUndefined | JNull | JBool _ | JNumber _ | JString _ => true
  | _ => false
  end.

(** What [Date.now()] returned to the operation, when it read the clock. *)
Definition time_of {Args Ctx : Type} (e : event Args Ctx) : option Z :=
  match e with
  | Call _ _ time | Fire _ time | Flush time => Some time
  | Cancel | Pending => None
  end.

Definition is_call {Args Ctx : Type} (e : event Args Ctx) : bool :=
  match e with
  | Call _ _ _ => true
  | _ => false
  end.

Definition is_flush {Args Ctx : Type} (e : event Args Ctx) : bool :=
  match e with
  | Flush _ => true
  | _ => false
  end.

(** The kind of timer the backend of [c] schedules. *)
Definition of_backend {Args Ctx Res : Type} (c : config Args Ctx Res)
  (tm : timer) : bool :=
  Bool.eqb (is_timeout (kind tm)) (negb (useRAF c)).

(** When the action was last executed, read off the log. *)
Definition last_execution {Args Ctx Res : Type} (s : state Args Ctx Res)
  : option Z :=
  last (map (fun i => Some (fst (fst i))) (invocations s)) None.

(** The decision as the specification words it, with the time since the
    last execution of the action where the code has the time since
    [lastInvokeTime]. *)
Definition shouldInvoke_as_specified {Args Ctx Res : Type}
  (c : config Args Ctx Res) (s : state Args Ctx Res) (t : Z) : Prop :=
  lastCallTime s = None
  \/ (exists lc, lastCallTime s = Some lc /\ t - lc >= wait c)
  \/ (exists lc, lastCallTime s = Some lc /\ t - lc < 0)
  \/ (maxing c = true /\
      exists m x, maxWait c = Some m /\ last_execution s = Some x
                  /\ t - x >= m).

(** The remaining wait as the specification words it, likewise. *)
Definition remainingWait_as_specified {Args Ctx Res : Type}
  (c : config Args Ctx Res) (s : state Args Ctx Res) (t rem : Z) : Prop :=
  exists lc, lastCallTime s = Some lc /\
    if maxing c
    then exists m x, maxWait c = Some m /\ last_execution s = Some x
                     /\ rem = Z.min (wait c - (t - lc)) (m - (t - x))
    else rem = wait c - (t - lc).

(** Every live timer is of the kind the backend schedules. *)
Definition backend_only {Args Ctx Res : Type} (c : config Args Ctx Res)
  (s : state Args Ctx Res) : Prop :=
  forallb (of_backend c) (timers s) = true.

(** Nothing is pending: the state [cancel] leaves behind. *)
Definition quiet {Args Ctx Res : Type} (s : state Args Ctx Res) : Prop :=
  lastArgs s = None /\ lastCallTime s = None /\ timerId s = None.

(** No timer is scheduled, in the controller or in the host. *)
Definition idle {Args Ctx Res : Type} (s : state Args Ctx Res) : Prop :=
  timerId s = None /\ timers s = [].

(** A burst is under way: the call with [this], [args] at time [tc] is
    the pending one, [tm] is the one live timer and the controller's, due
    not before [tc] and not after [tc + wait], and [log] is what was
    executed so far. *)
Definition in_burst {Args Ctx Res : Type} (c : config Args Ctx Res)
  (frame : Z) (log : list (Z * option Ctx * option Args))
  (this : Ctx) (args : Args) (tc : Z) (tm : timer)
  (s : state Args Ctx Res) : Prop :=
  lastArgs s = Some args /\ lastThis s = Some this
  /\ lastCallTime s = Some tc
  /\ invocations s = log
  /\ timers s = [tm] /\ timerId s = Some (handle tm)
  /\ tc <= due frame tm <= tc + wait c.

(** At most one timer is live, and it is the controller's. *)
Definition tidy {Args Ctx Res : Type} (s : state Args Ctx Res) : Prop :=
  timers s = [] \/ exists tm, timers s = [tm] /\ timerId s = Some (handle tm).

(** What the action returned when it was last executed, read off the
    log; [None] before any execution. *)
Definition last_returned {Args Ctx Res : Type} (c : config Args Ctx Res)
  (s : state Args Ctx Res) : option Res :=
  last (map (fun i => Some (func c (snd (fst i)) (snd i))) (invocations s))
    None.

(** An execution that was given the arguments of a call. *)
Definition applied_to_arguments {Args Ctx : Type}
  (i : Z * option Ctx * option Args) : bool :=
  is_some (snd i).

(** When a burst that began at [t1] and was last called at [tc] is
    due to be executed: [wait] after the last call, or, with [maxWait],
    [maxWait] after its beginning when that comes first. *)
Definition horizon {Args Ctx Res : Type} (c : config Args Ctx Res)
  (t1 tc : Z) : Z :=
  match maxing c, maxWait c with
  | true, Some m => Z.min (tc + wait c) (t1 + m)
  | _, _ => tc + wait c
  end.

(** A burst that began at [t1] is under way, under any options: the last
    call was at [tc], [pend] is the [this] and arguments that wait to be
    executed, if any, [tm] is the one live timer and the controller's,
    and [log] is what was executed so far. *)
Definition armed {Args Ctx Res : Type} (c : config Args Ctx Res)
  (frame : Z) (log : list (Z * option Ctx * option Args))
  (pend : option (Ctx * Args)) (t1 tc : Z) (tm : timer)
  (s : state Args Ctx Res) : Prop :=
  lastArgs s = option_map snd pend /\ lastThis s = option_map fst pend
  /\ lastCallTime s = Some tc /\ lastInvokeTime s = t1
  /\ invocations s = log
  /\ timers s = [tm] /\ timerId s = Some (handle tm)
  /\ tc <= due frame tm <= horizon c t1 tc.

(** What waits to be executed after the calls [rest] that follow the
    call [cur]. *)
Definition final_pending {Args Ctx : Type} (pend : option (Ctx * Args))
  (cur : Ctx * Args * Z) (rest : list (Ctx * Args * Z))
  : option (Ctx * Args) :=
  match rest with
  | [] => pend
  | _ :: _ => Some (fst (last rest cur))
  end.

(** The execution on the trailing edge of a burst. *)
Definition trailing_execution {Args Ctx Res : Type}
  (c : config Args Ctx Res) (when : Z) (pend : option (Ctx * Args))
  : list (Z * option Ctx * option Args) :=
  match pend with
  | Some (this, args) =>
      if trailing c then [(when, Some this, Some args)] else []
  | None => []
  end.

(** The execution on the leading edge of a burst. *)
Definition leading_execution {Args Ctx Res : Type}
  (c : config Args Ctx Res) (first : Ctx * Args * Z)
  : list (Z * option Ctx * option Args) :=
  if leading c
  then [(snd first, Some (fst (fst first)), Some (snd (fst first)))]
  else [].

(** All that a burst executes: its first call at once when [leading] is
    enabled, and what is pending when it has settled, at its horizon. *)
Definition burst_executions {Args Ctx Res : Type}
  (c : config Args Ctx Res) (first : Ctx * Args * Z)
  (rest : list (Ctx * Args * Z)) : list (Z * option Ctx * option Args) :=
  leading_execution c first
  ++ trailing_execution c
       (horizon c (snd first) (snd (last rest first)))
       (final_pending (if leading c then None else Some (fst first))
          first rest).

(** *** Controllers used as examples

    Arguments, [this] and results are numbers here; the wrapped function
    adds ten to its argument. *)

Module Examples.

Definition plus_ten : action nat nat nat :=
  fun _ args => match args with Some n => (n + 10)%nat | None => 0%nat end.

(** A conversion of strings that knows no numeral. *)
Definition no_numeral (s : string) : num := NaN.

(** Objects with no conversion of their own: all of them are [NaN]. *)
Definition plain_objects (v : value (action nat nat nat)) : exn + num :=
  inr NaN.

(** [debounce(plus_ten, undefined, {maxWait: 10})] where
    [requestAnimationFrame] exists *)
Definition framed_capped : config nat nat nat :=
  Config plus_ten 0 (Some 10) false true true true.

(** [debounce(plus_ten, 10)] *)
Definition plain : config nat nat nat :=
  Config plus_ten 10 None false false true false.

(** [debounce(plus_ten, 10, {maxWait: 10})] *)
Definition capped : config nat nat nat :=
  Config plus_ten 10 (Some 10) false true true false.

(** [debounce(plus_ten, 10, {maxWait: 15})] *)
Definition ceiling : config nat nat nat :=
  Config plus_ten 10 (Some 15) false true true false.

(** [debounce(plus_ten, 10, {leading: true})] *)
Definition eager : config nat nat nat :=
  Config plus_ten 10 None true false true false.

(** [debounce(plus_ten, 10, {trailing: false})] *)
Definition no_trailing : config nat nat nat :=
  Config plus_ten 10 None false false false false.

(** [debounce(plus_ten)] where [requestAnimationFrame] exists *)
Definition framed : config nat nat nat :=
  Config plus_ten 0 None false false true true.

(** [debounce(plus_ten, 10, {leading: true, trailing: false})] *)
Definition leading_only : config nat nat nat :=
  Config plus_ten 10 None true false false false.

(** [debounce(plus_ten, 10, {leading: false, trailing: false})] *)
Definition inert : config nat nat nat :=
  Config plus_ten 10 None false false false false.

(** A call at time 0, executed by its timer at time 10. *)
Definition plain_settled : state nat nat nat :=
  run plain [Call 7%nat 1%nat 0; Fire 0 10] init.

(** A call at time 0, flushed at time 1: its timer is still live. *)
Definition plain_flushed : state nat nat nat :=
  run plain [Call 7%nat 1%nat 0; Flush 1] init.

(** After one call at time 0, with [this] 7 and argument 1. *)
Definition plain_armed : state nat nat nat :=
  run plain [Call 7%nat 1%nat 0] init.

Definition capped_armed : state nat nat nat :=
  run capped [Call 7%nat 1%nat 0] init.

Definition eager_armed : state nat nat nat :=
  run eager [Call 7%nat 1%nat 0] init.

(** A first burst of one call at time 0, executed by its timer at time
    10, and the first call of a second burst at time 30. *)
Definition second_burst : state nat nat nat :=
  run ceiling [Call 7%nat 1%nat 0; Fire 0 10; Call 7%nat 2%nat 30] init.

(** The same, and a second call of the second burst at time 38. *)
Definition second_burst_on : state nat nat nat :=
  run ceiling
    [Call 7%nat 1%nat 0; Fire 0 10; Call 7%nat 2%nat 30; Call 7%nat 3%nat 38]
    init.

End Examples.

(** ** Properties *)

Section Properties.

Variables Args Ctx Res : Type.
Variable c : config Args Ctx Res.

Implicit Types (s : state Args Ctx Res) (e : event Args Ctx).

Ltac unfold_ops :=
  unfold step, fire, debounced, debounced_rest, leadingEdge, timerExpired,
    trailingEdge, invokeFunc, flush, cancel, cancelTimer, pending,
    startTimer, setTimeout, requestAnimationFrame, clearTimeout,
    cancelAnimationFrame, bind, gets, modify, ret.

Ltac simp :=
  cbn -[shouldInvoke remainingWait filter existsb due
        Z.add Z.sub Z.max Z.min Z.leb Z.ltb].

Ltac run_ops := unfold_ops; simp.

Ltac cases :=
  repeat (simp;
          match goal with
          | |- context [if ?b then _ else _] => destruct b eqn:?
          | |- context [match ?o with Some _ => _ | None => _ end] =>
              destruct o eqn:?
          end);
  simp.

(** Closes a goal of [lastInvokeTime_step] by the disjunct that holds. *)
Ltac pick :=
  first
    [ left; reflexivity
    | right; left; split; reflexivity
    | right; right; eexists; split; [reflexivity |]; split; [reflexivity |];
      first [ left; eexists; eexists; reflexivity
            | right; repeat split; (assumption || reflexivity) ] ].

(** *** The decision [shouldInvoke] *)

Lemma shouldInvoke_first_call s t :
  lastCallTime s = None -> shouldInvoke c s t = true.
Proof.
  intros H. unfold shouldInvoke. rewrite H. reflexivity.
Qed.

Lemma shouldInvoke_some s t lc :
  lastCallTime s = Some lc ->
  shouldInvoke c s t =
    ((wait c <=? t - lc) || (t - lc <? 0)
     || (maxing c && geb (Num (t - lastInvokeTime s)) (of_option (maxWait c)))).
Proof.
  intros H. unfold shouldInvoke. rewrite H. reflexivity.
Qed.

(** C2, as the code has it. [shouldInvoke(t)] is true exactly when no
    call is recorded, or the time since the last call is at least [wait],
    or that time is negative, or [maxWait] is configured and the time
    since [lastInvokeTime] is at least [maxWait]; [lastInvokeTime] is a
    timestamp that a wrapper call on the leading edge sets too, whether
    it executes the action or not. A wrapper call takes this decision on
    the state it finds, before it records itself, and a timer expiry
    takes it on the state it finds. *)
Theorem shouldInvoke_iff s t :
  (shouldInvoke c s t = true <->
     lastCallTime s = None
     \/ (exists lc, lastCallTime s = Some lc /\ t - lc >= wait c)
     \/ (exists lc, lastCallTime s = Some lc /\ t - lc < 0)
     \/ (maxing c = true /\
         exists m, maxWait c = Some m /\ t - lastInvokeTime s >= m))
  /\ (forall this args,
       shouldInvoke c s t = false ->
       debounced c this args t s =
         debounced_rest c t
           (set_lastCallTime (Some t)
              (set_lastThis (Some this) (set_lastArgs (Some args) s))))
  /\ (shouldInvoke c s t = true ->
       timerExpired c t s = trailingEdge c t s)
  /\ (forall this args,
       shouldInvoke c s t = true -> timerId s = None ->
       lastInvokeTime (snd (debounced c this args t s)) = t).
Proof.
  split; [| split; [| split]].
  - destruct (lastCallTime s) as [lc |] eqn:Hlc.
    + rewrite (shouldInvoke_some s t lc Hlc).
      rewrite !orb_true_iff, andb_true_iff, Z.leb_le, Z.ltb_lt.
      split.
      * intros [[H | H] | [Hm Hg]].
        -- right; left. exists lc. split; [reflexivity | lia].
        -- right; right; left. exists lc. split; [reflexivity | lia].
        -- right; right; right. split; [exact Hm |].
           destruct (maxWait c) as [m |]; [| discriminate Hg].
           exists m. split; [reflexivity |].
           cbn in Hg. apply Z.leb_le in Hg. lia.
      * intros [H | [(x & E & H) | [(x & E & H) | (Hm & m & Em & H)]]].
        -- discriminate H.
        -- injection E as <-. left; left. lia.
        -- injection E as <-. left; right. lia.
        -- right. split; [exact Hm |]. rewrite Em. cbn. apply Z.leb_le. lia.
    + rewrite (shouldInvoke_first_call s t Hlc). split; auto.
  - intros this args H. unfold debounced, bind, gets, modify. cbn.
    rewrite H. reflexivity.
  - intros H. unfold timerExpired, bind, gets. rewrite H. reflexivity.
  - intros this args H Hid.
    destruct s as [la lth r0 tid lct lit ts nh inv]. cbn in Hid. subst tid.
    run_ops. rewrite H. cases; reflexivity.
Qed.

(** *** Wrapper calls *)

(** What a wrapper call does at time [t] when it finds [shouldInvoke(t)]
    true, a timer scheduled and [maxWait] configured: it starts a timer
    for a fresh [wait] and makes it the controller's timer, executes the
    action at once with the arguments and [this] of this very call, and
    returns the result of that execution, which is cached. Under the frame
    backend the frame callback held before is cancelled first; under the
    delay backend the host's table is left as it was, and the timer held
    before stays in it. *)
Theorem debounced_tight_loop s this args t h0 :
  shouldInvoke c s t = true ->
  timerId s = Some h0 ->
  maxing c = true ->
  let r := Some (func c (Some this) (Some args)) in
  let s' := snd (debounced c this args t s) in
  fst (debounced c this args t s) = r
  /\ result s' = r
  /\ invocations s' = invocations s ++ [(t, Some this, Some args)]
  /\ timerId s' = Some (next_handle s)
  /\ timers s' =
       (if useRAF c
        then filter
               (fun tm => negb (has_handle h0 tm && negb (is_timeout (kind tm))))
               (timers s) ++ [Timer (next_handle s) Frame t]
        else timers s ++ [Timer (next_handle s) (Timeout (Num (wait c))) t])
  /\ lastCallTime s' = Some t
  /\ lastInvokeTime s' = t
  /\ lastArgs s' = None
  /\ lastThis s' = None.
Proof.
  intros Hinv Hid Hmax.
  destruct s as [la lth r0 tid lct lit ts nh inv]. cbn in Hid. subst tid.
  run_ops. rewrite Hinv, Hmax.
  destruct (useRAF c); cbn -[filter]; repeat split; reflexivity.
Qed.

(** *** [flush] *)

(** C6, as the code has it. With no timer scheduled, [flush()] returns
    the cached result and changes nothing. With a timer scheduled it
    forgets the timer and the pending call; it executes the action, with
    the last recorded arguments and at once, and returns that result,
    when [trailing] is enabled and a call is pending, and otherwise
    executes nothing and returns the cached result. *)
Theorem flush_spec s t :
  (timerId s = None -> flush c t s = (result s, s))
  /\ (timerId s <> None ->
      let s' := snd (flush c t s) in
      timerId s' = None /\ lastArgs s' = None /\ lastThis s' = None
      /\ timers s' = timers s /\ lastCallTime s' = lastCallTime s)
  /\ (timerId s <> None -> trailing c = true -> lastArgs s <> None ->
      let r := Some (func c (lastThis s) (lastArgs s)) in
      let s' := snd (flush c t s) in
      fst (flush c t s) = r
      /\ result s' = r
      /\ invocations s' = invocations s ++ [(t, lastThis s, lastArgs s)]
      /\ lastInvokeTime s' = t)
  /\ (timerId s <> None -> trailing c = false \/ lastArgs s = None ->
      let s' := snd (flush c t s) in
      fst (flush c t s) = result s
      /\ result s' = result s
      /\ invocations s' = invocations s
      /\ lastInvokeTime s' = lastInvokeTime s).
Proof.
  destruct s as [la lth r0 [h |] lct lit ts nh inv]; cbn.
  - split; [intros H; discriminate |].
    split; [| split].
    + intros _. run_ops.
      destruct (trailing c), la; cbn; repeat split; reflexivity.
    + intros _ Htr Hla. run_ops. rewrite Htr.
      destruct la; [| contradiction]. cbn. repeat split; reflexivity.
    + intros _ H. run_ops.
      destruct H as [H | H]; [rewrite H | subst la; rewrite andb_false_r];
        cbn; repeat split; reflexivity.
  - split; [intros _; reflexivity |].
    repeat (split; [intros Hn; contradiction |]). intros Hn; contradiction.
Qed.

(** *** What construction guarantees *)

Lemma falsy_converts_to_zero (stn : string -> num)
  (otn : value (action Args Ctx Res) -> exn + num)
  (v : value (action Args Ctx Res)) (w : num) :
  ToBoolean v = false -> ToNumber stn otn v = inr w -> or_zero w = 0.
Proof.
  destruct v as [| | b | [| z] | str | | z | f | props]; cbn;
    intros Hb Hn; try discriminate; injection Hn as <-; cbn; try reflexivity.
  - destruct b; [discriminate | reflexivity].
  - apply negb_false_iff, Z.eqb_eq in Hb. exact Hb.
  - apply negb_false_iff in Hb. rewrite Hb. reflexivity.
Qed.

Lemma constructed_wf :
  constructed c ->
  (useRAF c = true -> wait c = 0)
  /\ (maxing c = true -> exists m, maxWait c = Some m /\ wait c <= m)
  /\ (maxing c = false -> maxWait c = None).
Proof.
  intros (stn & otn & raf & fv & wv & ov & H). unfold debounce in H.
  destruct fv; try discriminate.
  destruct (ToNumber stn otn wv) as [e | w] eqn:Hw; cbn in H;
    try discriminate.
  assert (Hraf : negb (ToBoolean wv) && strict_neq_zero wv && raf = true ->
                 or_zero w = 0).
  { intros Hu. apply andb_prop in Hu as [Hu _]. apply andb_prop in Hu as [Hu _].
    apply negb_true_iff in Hu. eapply falsy_converts_to_zero; eassumption. }
  destruct (isObject ov).
  - destruct (has "maxWait" ov).
    + destruct (ToNumber stn otn (get "maxWait" ov)) as [e | m]; cbn in H;
        try discriminate.
      injection H as <-. cbn. repeat split; auto; try discriminate.
      intros _. eexists. split; [reflexivity | lia].
    + cbn in H. injection H as <-. cbn. repeat split; auto; discriminate.
  - injection H as <-. cbn. repeat split; auto; discriminate.
Qed.

(** *** Timer expiry *)

(** C8, as the code has it. When the timer callback runs at time [t]
    in a controller that [debounce] built: if [shouldInvoke(t)], the timer handle and the
    pending call are cleared either way, and the action is executed with
    the pending arguments, its result cached, exactly when [trailing] is
    enabled and a call is pending; if not, a timer is started for the
    remaining wait and becomes the controller's timer, the remaining wait
    being [wait] less the time since the last call, or, when [maxWait] is
    configured, the smaller of that and [maxWait] less the time since
    [lastInvokeTime]. *)
Theorem timerExpired_spec s t :
  constructed c ->
  let s' := snd (timerExpired c t s) in
  (shouldInvoke c s t = true ->
     timerId s' = None /\ lastArgs s' = None /\ lastThis s' = None
     /\ timers s' = timers s
     /\ (trailing c = true -> lastArgs s <> None ->
         invocations s' = invocations s ++ [(t, lastThis s, lastArgs s)]
         /\ result s' = Some (func c (lastThis s) (lastArgs s))
         /\ lastInvokeTime s' = t)
     /\ (trailing c = false \/ lastArgs s = None ->
         invocations s' = invocations s
         /\ result s' = result s
         /\ lastInvokeTime s' = lastInvokeTime s))
  /\ (shouldInvoke c s t = false ->
      exists lc rem,
        lastCallTime s = Some lc
        /\ (maxing c = false -> rem = wait c - (t - lc))
        /\ (maxing c = true ->
            exists m, maxWait c = Some m
              /\ rem = Z.min (wait c - (t - lc))
                             (m - (t - lastInvokeTime s)))
        /\ timerId s' = Some (next_handle s)
        /\ timers s' =
             timers s ++ [Timer (next_handle s) (Timeout (Num rem)) t]
        /\ invocations s' = invocations s
        /\ result s' = result s
        /\ lastArgs s' = lastArgs s
        /\ lastThis s' = lastThis s
        /\ lastCallTime s' = lastCallTime s
        /\ lastInvokeTime s' = lastInvokeTime s).
Proof.
  intros Hc. destruct (constructed_wf Hc) as (Hraf & Hmax & Hnomax).
  destruct s as [la lth r0 tid lct lit ts nh inv]. cbn zeta. split.
  - intros Hinv. run_ops. rewrite Hinv.
    destruct (trailing c) eqn:Htr, la as [a |]; cbn;
      repeat split; try reflexivity; try congruence.
    all: match goal with H : _ \/ _ |- _ => destruct H; discriminate end.
  - intros Hinv. run_ops. rewrite Hinv.
    destruct lct as [lc |]; [| discriminate Hinv].
    assert (Hu : useRAF c = false).
    { destruct (useRAF c); [| reflexivity].
      unfold shouldInvoke in Hinv. cbn in Hinv.
      rewrite Hraf in Hinv by reflexivity.
      apply orb_false_iff in Hinv as [Hinv _].
      apply orb_false_iff in Hinv as [H1 H2].
      apply Z.leb_gt in H1. apply Z.ltb_ge in H2. lia. }
    rewrite Hu. unfold remainingWait. cbn.
    destruct (maxing c) eqn:Hm.
    + destruct Hmax as (m & Em & Hle); [reflexivity |]. rewrite Em. cbn.
      exists lc, (Z.min (wait c - (t - lc)) (m - (t - lit))).
      repeat split; try reflexivity; try discriminate.
      exists m. split; reflexivity.
    + exists lc, (wait c - (t - lc)).
      repeat split; try reflexivity; try discriminate.
Qed.

(** *** Construction *)


(** *** [lastInvokeTime] *)

Lemma app_one_neq {A : Type} (l : list A) (x : A) : l ++ [x] <> l.
Proof.
  intros H. apply (f_equal (@List.length A)) in H.
  rewrite List.length_app in H. cbn in H. lia.
Qed.

Lemma lastInvokeTime_step s e :
  let s' := step c s e in
  lastInvokeTime s' = lastInvokeTime s
  \/ (e = Cancel /\ lastInvokeTime s' = 0)
  \/ (exists t, time_of e = Some t /\ lastInvokeTime s' = t /\
       ((exists th a, invocations s' = invocations s ++ [(t, th, a)])
        \/ (is_call e = true /\ shouldInvoke c s t = true
            /\ timerId s = None))).
Proof.
  destruct s as [la lth r0 tid lct lit ts nh inv].
  destruct e as [this args t | h t | | t |]; cbn zeta.
  - run_ops. cases; pick.
  - run_ops. unfold live. cases; pick.
  - right; left. split; [reflexivity |]. run_ops. cases; reflexivity.
  - run_ops. cases; pick.
  - left. reflexivity.
Qed.

(** What a step executes: nothing, or the action once, at the time the
    operation read from the clock, which is then [lastInvokeTime]. *)
Lemma execution_step s e :
  let s' := step c s e in
  invocations s' = invocations s
  \/ (exists t th a,
        time_of e = Some t
        /\ invocations s' = invocations s ++ [(t, th, a)]
        /\ lastInvokeTime s' = t).
Proof.
  destruct s as [la lth r0 tid lct lit ts nh inv].
  destruct e as [this args t | h t | | t |]; run_ops; try unfold live;
    cases;
    first [ left; reflexivity
          | right; eexists _, _, _; repeat split; reflexivity ].
Qed.

Lemma leading_edge_step s this args t :
  shouldInvoke c s t = true -> timerId s = None ->
  lastInvokeTime (step c s (Call this args t)) = t.
Proof.
  destruct s as [la lth r0 tid lct lit ts nh inv]. cbn. intros H ->.
  run_ops. rewrite H. cases; reflexivity.
Qed.

Lemma cancel_step s : lastInvokeTime (step c s Cancel) = 0.
Proof.
  destruct s as [la lth r0 tid lct lit ts nh inv].
  run_ops. cases; reflexivity.
Qed.

(** C4, as the code has it. An operation changes [lastInvokeTime] in
    three ways only, and in each of them it does: an execution of the
    action at time [t] sets it to [t]; a wrapper call at time [t] on the
    leading edge ([shouldInvoke(t)] with no timer scheduled) sets it to
    [t], whether or not anything is executed; [cancel()] resets it to
    zero. So it never decreases, [cancel] apart, as long as the clock is
    not behind it, and any other operation that executes nothing (a
    wrapper call off the leading edge, a flush, a timer that is
    rescheduled) leaves it as it is. *)
Theorem lastInvokeTime_changes s e :
  let s' := step c s e in
  let leading_edge :=
    is_call e = true /\
    exists t, time_of e = Some t /\ shouldInvoke c s t = true
              /\ timerId s = None in
  (lastInvokeTime s' = lastInvokeTime s
   \/ (e = Cancel /\ lastInvokeTime s' = 0)
   \/ (exists t, time_of e = Some t /\ lastInvokeTime s' = t /\
        ((exists th a, invocations s' = invocations s ++ [(t, th, a)])
         \/ leading_edge)))
  /\ (e <> Cancel ->
      (forall t, time_of e = Some t -> lastInvokeTime s <= t) ->
      lastInvokeTime s <= lastInvokeTime s')
  /\ (e <> Cancel -> ~ leading_edge ->
      invocations s' = invocations s ->
      lastInvokeTime s' = lastInvokeTime s)
  /\ (e = Cancel -> lastInvokeTime s' = 0)
  /\ (leading_edge ->
      exists t, time_of e = Some t /\ lastInvokeTime s' = t)
  /\ (invocations s' = invocations s
      \/ exists x, invocations s' = invocations s ++ [x])
  /\ (forall x, invocations s' = invocations s ++ [x] ->
      time_of e = Some (fst (fst x)) /\ lastInvokeTime s' = fst (fst x)).
Proof.
  cbn zeta.
  pose proof (lastInvokeTime_step s e) as H. cbn zeta in H.
  pose proof (execution_step s e) as Hx. cbn zeta in Hx.
  split; [| split; [| split; [| split; [| split; [| split]]]]].
  - destruct H as [H | [H | (t & Ht & Hl & [Hex | (Hcall & Hinv & Hid)])]];
      auto.
    + right; right. exists t. auto.
    + right; right. exists t. repeat split; auto.
      right. split; [assumption |]. exists t. auto.
  - intros Hne Hclock.
    destruct H as [H | [[H _] | (t & Ht & Hl & _)]];
      [lia | contradiction | rewrite Hl; auto].
  - intros Hne Hnl Hsame.
    destruct H as [H | [[H _] | (t & Ht & Hl & [(th & a & Hex) | Hle])]];
      [assumption | contradiction | |].
    + rewrite Hsame in Hex. symmetry in Hex.
      destruct (app_one_neq _ _ Hex).
    + exfalso. apply Hnl. destruct Hle as (Hcall & Hinv & Hid).
      split; [assumption |]. exists t. auto.
  - intros ->. apply cancel_step.
  - intros (Hcall & t & Ht & Hinv & Hid).
    destruct e as [this args t' | | | |]; try discriminate Hcall.
    cbn in Ht. injection Ht as ->. exists t.
    split; [reflexivity |]. apply leading_edge_step; assumption.
  - destruct Hx as [Hx | (t & th & a & _ & Hx & _)]; [left | right]; eauto.
  - intros x Hgrow.
    destruct Hx as [Hx | (t & th & a & Ht & Hx & Hl)].
    + rewrite Hx in Hgrow. symmetry in Hgrow.
      destruct (app_one_neq _ _ Hgrow).
    + rewrite Hx in Hgrow. apply app_inv_head in Hgrow.
      injection Hgrow as <-. cbn. auto.
Qed.

(** *** Reachable states *)

Lemma run_snoc (es : list (event Args Ctx)) e s :
  run c (es ++ [e]) s = step c (run c es s) e.
Proof.
  unfold run. rewrite fold_left_app. reflexivity.
Qed.

Lemma reachable_init : reachable c init.
Proof.
  exists []. reflexivity.
Qed.

Lemma reachable_step s e : reachable c s -> reachable c (step c s e).
Proof.
  intros [es ->]. exists (es ++ [e]). symmetry. apply run_snoc.
Qed.

Lemma reachable_invariant (P : state Args Ctx Res -> Prop) :
  P init ->
  (forall s e, reachable c s -> P s -> P (step c s e)) ->
  forall s, reachable c s -> P s.
Proof.
  intros Hinit Hstep s [es ->].
  induction es as [| e es IH] using rev_ind.
  - exact Hinit.
  - rewrite run_snoc. apply Hstep; [exists es; reflexivity | exact IH].
Qed.

Lemma forallb_filter {A : Type} (p q : A -> bool) (l : list A) :
  forallb p l = true -> forallb p (filter q l) = true.
Proof.
  induction l as [| x l IH]; cbn; [reflexivity |].
  intros H. apply andb_prop in H as [Hx Hl].
  destruct (q x); cbn; [rewrite Hx |]; auto.
Qed.

Lemma backend_only_step s e : backend_only c s -> backend_only c (step c s e).
Proof.
  unfold backend_only, of_backend.
  destruct s as [la lth r0 tid lct lit ts nh inv]. cbn. intros H.
  destruct e as [this args t | h t | | t |]; run_ops; try unfold live;
    cases; rewrite ?forallb_app; cbn;
    repeat match goal with
    | E : useRAF c = _ |- _ => rewrite E
    end; cbn; rewrite ?andb_true_r;
    repeat apply forallb_filter; assumption.
Qed.

Lemma reachable_backend_only s : reachable c s -> backend_only c s.
Proof.
  revert s. apply reachable_invariant.
  - reflexivity.
  - intros s e _. apply backend_only_step.
Qed.

(** *** [cancel] *)

Lemma quiet_step s e :
  quiet s -> is_call e = false ->
  quiet (step c s e) /\ invocations (step c s e) = invocations s.
Proof.
  destruct s as [la lth r0 tid lct lit ts nh inv].
  intros (Hla & Hlc & Hid) Hcall. cbn in Hla, Hlc, Hid. subst la lct tid.
  unfold quiet.
  destruct e as [this args t | h t | | t |]; try discriminate Hcall;
    run_ops; try unfold live; cases; auto.
  all: match goal with
       | E : shouldInvoke c _ _ = false |- _ =>
           rewrite shouldInvoke_first_call in E by reflexivity; discriminate E
       | E : _ && false = true |- _ =>
           rewrite andb_false_r in E; discriminate E
       end.
Qed.

Lemma quiet_run (es : list (event Args Ctx)) s :
  quiet s -> forallb (fun e => negb (is_call e)) es = true ->
  quiet (run c es s) /\ invocations (run c es s) = invocations s.
Proof.
  revert s. induction es as [| e es IH]; intros s Hq Hes.
  - split; [assumption | reflexivity].
  - cbn in Hes. apply andb_prop in Hes as [He Hes].
    apply negb_true_iff in He.
    destruct (quiet_step s e Hq He) as [Hq' Hinv'].
    destruct (IH _ Hq' Hes) as [Hq'' Hinv''].
    change (run c (e :: es) s) with (run c es (step c s e)).
    split; [assumption | congruence].
Qed.

Lemma not_live_after_filter (h : nat) (p : timer -> bool) (ts : list timer) :
  (forall tm, In tm ts -> has_handle h tm = true -> p tm = false) ->
  existsb (has_handle h) (filter p ts) = false.
Proof.
  intros H. induction ts as [| tm ts IH]; cbn; [reflexivity |].
  destruct (p tm) eqn:Hp; cbn.
  - destruct (has_handle h tm) eqn:Hh.
    + rewrite (H tm) in Hp; [discriminate | left; reflexivity | assumption].
    + apply IH. intros tm' Hin. apply H. right. assumption.
  - apply IH. intros tm' Hin. apply H. right. assumption.
Qed.

(** C5. In every state [cancel()] clears the timer handle and the
    pending call (arguments, [this] and [lastCallTime]), keeps the cached
    result, executes nothing and schedules nothing; [pending()] is false
    right after it; until the wrapper is called again, no timer that
    fires, no flush and no further cancel executes the action; and in a
    reachable state the timer the controller held is cancelled in the
    host. *)
Theorem cancel_spec s :
  let s' := snd (cancel c s) in
  timerId s' = None /\ lastArgs s' = None /\ lastThis s' = None
  /\ lastCallTime s' = None
  /\ result s' = result s
  /\ invocations s' = invocations s
  /\ fst (pending s') = false
  /\ incl (timers s') (timers s)
  /\ (forall es, forallb (fun e => negb (is_call e)) es = true ->
      invocations (run c es s') = invocations s)
  /\ (reachable c s -> forall h, timerId s = Some h -> live h s' = false).
Proof.
  cbn zeta.
  assert (Hmain :
    let s' := snd (cancel c s) in
    timerId s' = None /\ lastArgs s' = None /\ lastThis s' = None
    /\ lastCallTime s' = None /\ result s' = result s
    /\ invocations s' = invocations s /\ incl (timers s') (timers s)).
  { destruct s as [la lth r0 tid lct lit ts nh inv]. run_ops.
    cases; repeat split; try reflexivity;
      try apply incl_filter; apply incl_refl. }
  cbn zeta in Hmain.
  destruct Hmain as (Hid & Hla & Hlt & Hlc & Hres & Hinv & Hincl).
  repeat split; try assumption.
  - unfold pending, bind, gets, ret. cbn -[cancel]. rewrite Hid. reflexivity.
  - intros es Hes. rewrite <- Hinv. apply quiet_run; [| assumption].
    unfold quiet. auto.
  - intros Hreach h Hh. apply reachable_backend_only in Hreach.
    unfold backend_only in Hreach. rewrite forallb_forall in Hreach.
    destruct s as [la lth r0 tid lct lit ts nh inv]. cbn in Hh, Hreach.
    subst tid. unfold live. run_ops.
    destruct (useRAF c) eqn:Hu; cbn -[filter];
      apply not_live_after_filter; intros tm Hin Hhandle;
      specialize (Hreach tm Hin); unfold of_backend in Hreach;
      rewrite Hu in Hreach; cbn in Hreach; rewrite Hhandle; cbn;
      apply eqb_prop in Hreach; rewrite Hreach; reflexivity.
Qed.

(** *** Bursts under the default options *)

Section Burst.

Variable frame : Z.

Hypothesis leading_off : leading c = false.
Hypothesis trailing_on : trailing c = true.
Hypothesis no_maxWait : maxing c = false.
Hypothesis delay_based : useRAF c = false.
Hypothesis wait_nonneg : 0 <= wait c.

Lemma due_timeout (h : nat) (d t : Z) :
  due frame (Timer h (Timeout (Num d)) t) = t + Z.max 0 d.
Proof. reflexivity. Qed.

Lemma shouldInvoke_in_burst s t tc :
  lastCallTime s = Some tc ->
  shouldInvoke c s t = ((wait c <=? t - tc) || (t - tc <? 0)).
Proof.
  intros H. rewrite (shouldInvoke_some s t tc H), no_maxWait.
  cbn. apply orb_false_r.
Qed.

(** The first call of a burst arms the timer for [wait]. *)
Lemma first_call_arms s this args t :
  idle s ->
  exists tm,
    in_burst c frame (invocations s) this args t tm
      (snd (debounced c this args t s)).
Proof.
  destruct s as [la lth r0 tid lct lit ts nh inv].
  intros [Hid Hts]. cbn in Hid, Hts. subst tid ts.
  exists (Timer nh (Timeout (Num (wait c))) t).
  unfold in_burst. run_ops.
  rewrite leading_off, delay_based.
  destruct (shouldInvoke c _ t); simp; rewrite due_timeout;
    repeat split; try reflexivity; lia.
Qed.

(** A later call of the burst only replaces the pending call. *)
Lemma next_call_keeps_timer log s this args tc tm this' args' t :
  in_burst c frame log this args tc tm s ->
  0 <= t - tc < wait c ->
  t < due frame tm ->
  in_burst c frame log this' args' t tm (snd (debounced c this' args' t s)).
Proof.
  destruct s as [la lth r0 tid lct lit ts nh inv].
  intros (Hla & Hlt & Hlc & Hinv & Hts & Hid & Hdue) Ht Hlate.
  cbn in Hla, Hlt, Hlc, Hinv, Hts, Hid. subst la lth lct inv ts tid.
  unfold in_burst. run_ops.
  rewrite shouldInvoke_in_burst with (tc := tc) by reflexivity.
  replace (wait c <=? t - tc) with false by (symmetry; apply Z.leb_gt; lia).
  replace (t - tc <? 0) with false by (symmetry; apply Z.ltb_ge; lia).
  simp. repeat split; try reflexivity; lia.
Qed.

Lemma fire_own_timer s tm time :
  timers s = [tm] ->
  fire c (handle tm) time s = timerExpired c time (set_timers [] s).
Proof.
  intros Hts. unfold fire, live. rewrite Hts. cbn.
  unfold has_handle. rewrite Nat.eqb_refl. reflexivity.
Qed.

(** A timer that fires before the burst has settled is started again,
    for what remains of [wait]. *)
Lemma early_timer_restarts log s this args tc tm :
  in_burst c frame log this args tc tm s ->
  due frame tm < tc + wait c ->
  exists tm',
    in_burst c frame log this args tc tm'
      (snd (fire c (handle tm) (due frame tm) s))
    /\ due frame tm' = tc + wait c.
Proof.
  intros (Hla & Hlt & Hlc & Hinv & Hts & Hid & Hdue) Hearly.
  rewrite (fire_own_timer s tm _ Hts).
  destruct s as [la lth r0 tid lct lit ts nh inv].
  cbn in Hla, Hlt, Hlc, Hinv, Hts, Hid. subst la lth lct inv ts tid.
  set (d := due frame tm) in *.
  exists (Timer nh (Timeout (Num (wait c - (d - tc)))) d).
  unfold in_burst. run_ops.
  rewrite shouldInvoke_in_burst with (tc := tc) by reflexivity.
  replace (wait c <=? d - tc) with false by (symmetry; apply Z.leb_gt; lia).
  replace (d - tc <? 0) with false by (symmetry; apply Z.ltb_ge; lia).
  simp. rewrite delay_based. simp.
  unfold remainingWait. rewrite no_maxWait. simp.
  rewrite due_timeout. repeat split; try reflexivity; lia.
Qed.

(** The timer that fires [wait] after the last call executes it. *)
Lemma settled_timer_executes log s this args tc tm :
  in_burst c frame log this args tc tm s ->
  due frame tm = tc + wait c ->
  let s' := snd (fire c (handle tm) (due frame tm) s) in
  invocations s' = log ++ [(tc + wait c, Some this, Some args)]
  /\ result s' = Some (func c (Some this) (Some args))
  /\ idle s'.
Proof.
  intros (Hla & Hlt & Hlc & Hinv & Hts & Hid & Hdue) Hsettled.
  rewrite (fire_own_timer s tm _ Hts).
  destruct s as [la lth r0 tid lct lit ts nh inv].
  cbn in Hla, Hlt, Hlc, Hinv, Hts, Hid. subst la lth lct inv ts tid.
  rewrite Hsettled. unfold idle. run_ops.
  rewrite shouldInvoke_in_burst with (tc := tc) by reflexivity.
  replace (wait c <=? tc + wait c - tc) with true
    by (symmetry; apply Z.leb_le; lia).
  simp. rewrite trailing_on. simp. repeat split; reflexivity.
Qed.

Lemma settle_idle fuel limit s :
  timers s = [] -> settle c frame fuel limit s = Some s.
Proof.
  intros H. destruct fuel; cbn; rewrite H; reflexivity.
Qed.

Lemma settle_not_due fuel t s tm :
  timers s = [tm] -> t < due frame tm ->
  settle c frame fuel (Some t) s = Some s.
Proof.
  intros H Hlate.
  destruct fuel; cbn -[due]; rewrite H; cbn -[due];
    (replace (due frame tm <=? t) with false
       by (symmetry; apply Z.leb_gt; lia)); reflexivity.
Qed.

Lemma settle_fires fuel limit s tm :
  timers s = [tm] -> due_by frame limit tm = true ->
  settle c frame (S fuel) limit s =
    settle c frame fuel limit (snd (fire c (handle tm) (due frame tm) s)).
Proof.
  intros H Hdue. cbn -[due due_by fire]. rewrite H. cbn -[due due_by fire].
  rewrite Hdue. reflexivity.
Qed.

(** Up to the next call of the burst the timer fires at most once, and
    is then due after that call. *)
Lemma settle_before_call fuel log s this args tc tm t :
  in_burst c frame log this args tc tm s ->
  0 <= t - tc < wait c ->
  (1 <= fuel)%nat ->
  exists s' tm',
    settle c frame fuel (Some t) s = Some s'
    /\ in_burst c frame log this args tc tm' s'
    /\ t < due frame tm'.
Proof.
  intros Hb Ht Hfuel.
  pose proof Hb as (_ & _ & _ & _ & Hts & _ & Hdue).
  destruct (Z.leb_spec (due frame tm) t) as [Hle | Hgt].
  - destruct fuel as [| fuel]; [lia |].
    destruct (early_timer_restarts log s this args tc tm Hb)
      as (tm' & Hb' & Hd'); [lia |].
    pose proof Hb' as (_ & _ & _ & _ & Hts' & _).
    eexists _, tm'. split; [| split; [exact Hb' | lia]].
    rewrite (settle_fires fuel (Some t) s tm Hts)
      by (apply Z.leb_le; exact Hle).
    apply settle_not_due with (tm := tm'); [exact Hts' | lia].
  - exists s, tm. split; [| split; [exact Hb | exact Hgt]].
    apply settle_not_due with (tm := tm); assumption.
Qed.

(** Once the calls have stopped the timer fires at most twice, the last
    time [wait] after the last call, and executes it. *)
Lemma settle_after_last_call fuel log s this args tc tm :
  in_burst c frame log this args tc tm s ->
  (2 <= fuel)%nat ->
  exists s',
    settle c frame fuel None s = Some s'
    /\ invocations s' = log ++ [(tc + wait c, Some this, Some args)]
    /\ result s' = Some (func c (Some this) (Some args))
    /\ idle s'.
Proof.
  intros Hb Hfuel.
  assert (Hlast : forall f tm0,
    in_burst c frame log this args tc tm0 s ->
    due frame tm0 = tc + wait c ->
    exists s',
      settle c frame (S f) None s = Some s'
      /\ invocations s' = log ++ [(tc + wait c, Some this, Some args)]
      /\ result s' = Some (func c (Some this) (Some args))
      /\ idle s').
  { intros f tm0 Hb0 Hd0.
    pose proof Hb0 as (_ & _ & _ & _ & Hts0 & _).
    destruct (settled_timer_executes log s this args tc tm0 Hb0 Hd0)
      as (Hinv & Hres & Hidle).
    eexists. split; [| split; [exact Hinv | split; [exact Hres | exact Hidle]]].
    rewrite (settle_fires f None s tm0 Hts0) by reflexivity.
    apply settle_idle. apply Hidle. }
  pose proof Hb as (_ & _ & _ & _ & Hts & _ & Hdue).
  destruct fuel as [| [| fuel]]; try lia.
  destruct (Z.eq_dec (due frame tm) (tc + wait c)) as [Heq | Hne].
  - apply Hlast with (tm0 := tm); assumption.
  - destruct (early_timer_restarts log s this args tc tm Hb)
      as (tm' & Hb' & Hd'); [lia |].
    rewrite (settle_fires (S fuel) None s tm Hts) by reflexivity.
    revert Hb' Hd'.
    generalize (snd (fire c (handle tm) (due frame tm) s)). intros s1 Hb' Hd'.
    clear Hlast.
    pose proof Hb' as (_ & _ & _ & _ & Hts' & _).
    destruct (settled_timer_executes log s1 this args tc tm' Hb' Hd')
      as (Hinv & Hres & Hidle).
    eexists. split; [| split; [exact Hinv | split; [exact Hres | exact Hidle]]].
    rewrite (settle_fires fuel None s1 tm' Hts') by reflexivity.
    apply settle_idle. apply Hidle.
Qed.

Lemma last_cons {A : Type} (x d : A) (l : list A) :
  last (x :: l) d = last l x.
Proof.
  revert x d. induction l as [| y l IH]; intros x d; [reflexivity |].
  change (last (x :: y :: l) d) with (last (y :: l) d).
  rewrite (IH y d), (IH y x). reflexivity.
Qed.

Lemma burst_in_progress fuel (rest : list (Ctx * Args * Z)) :
  (2 <= fuel)%nat ->
  forall log s this args tc tm lthis largs lt,
    in_burst c frame log this args tc tm s ->
    spaced (wait c) ((this, args, tc) :: rest) ->
    last rest (this, args, tc) = (lthis, largs, lt) ->
    exists s',
      run_burst c frame fuel rest s = Some s'
      /\ invocations s' = log ++ [(lt + wait c, Some lthis, Some largs)]
      /\ result s' = Some (func c (Some lthis) (Some largs))
      /\ idle s'.
Proof.
  intros Hfuel.
  induction rest as [| [[this' args'] t'] rest IH];
    intros log s this args tc tm lthis largs lt Hb Hsp Hlast.
  - cbn in Hlast. injection Hlast as <- <- <-.
    apply settle_after_last_call with (tm := tm); assumption.
  - destruct Hsp as [Hgap Hsp].
    destruct (settle_before_call fuel log s this args tc tm t' Hb Hgap)
      as (s1 & tm1 & Hsettle & Hb1 & Hlate); [lia |].
    cbn [run_burst]. rewrite Hsettle.
    apply IH with (this := this') (args := args') (tc := t') (tm := tm1).
    + apply next_call_keeps_timer with (this := this) (args := args)
        (tc := tc); assumption.
    + exact Hsp.
    + rewrite <- Hlast. symmetry. apply last_cons.
Qed.


End Burst.

(** *** How many timers are live *)

Lemma tidy_step s e :
  useRAF c = true \/ maxing c = false ->
  backend_only c s -> tidy s -> is_flush e = false ->
  tidy (step c s e).
Proof.
  intros Hpath Hback Htidy Hflush.
  destruct s as [la lth r0 tid lct lit ts nh inv].
  unfold backend_only, of_backend in Hback. unfold tidy in *.
  cbn in Hback, Htidy.
  destruct Htidy as [Hts | ([h k sa] & Hts & Hid)]; [| cbn in Hid]; subst.
  - destruct e as [this args t | h t | | t |]; try discriminate Hflush;
      run_ops; try unfold live; cases; cbn; eauto.
  - cbn in Hback. rewrite andb_true_r in Hback. apply eqb_prop in Hback.
    destruct e as [this args t | h' t | | t |]; try discriminate Hflush;
      run_ops; try unfold live; cases;
      try (destruct Hpath; congruence);
      cbn [filter]; unfold has_handle in *; cbn;
      repeat match goal with
      | E : existsb _ [_] = true |- _ =>
          cbn in E; rewrite orb_false_r in E; rewrite E
      | E : useRAF c = _ |- _ => rewrite E in Hback; clear E
      end;
      rewrite ?Nat.eqb_refl, ?Hback; cbn; eauto.
Qed.

Lemma tidy_run (es : list (event Args Ctx)) :
  useRAF c = true \/ maxing c = false ->
  forallb (fun e => negb (is_flush e)) es = true ->
  tidy (run c es init).
Proof.
  intros Hpath. induction es as [| e es IH] using rev_ind; intros Hes.
  - left. reflexivity.
  - rewrite forallb_app in Hes. apply andb_prop in Hes as [Hes He].
    cbn in He. rewrite andb_true_r in He. apply negb_true_iff in He.
    rewrite run_snoc. apply tidy_step; auto.
    apply reachable_backend_only. exists es. reflexivity.
Qed.

(** What does hold of the number of timers: without [flush], and with
    frames as the backend or without [maxWait], at most one timer is ever
    live. *)
Lemma one_timer_without_flush (es : list (event Args Ctx)) :
  useRAF c = true \/ maxing c = false ->
  forallb (fun e => negb (is_flush e)) es = true ->
  (List.length (timers (run c es init)) <= 1)%nat.
Proof.
  intros Hpath Hes.
  destruct (tidy_run es Hpath Hes) as [H | (tm & H & _)];
    rewrite H; cbn; lia.
Qed.

(** *** What a wrapper call and [flush] return *)

(** A wrapper call always leaves a timer handle in the controller; when
    none was there before, it is that of a timer just started for [wait]
    (a frame callback when frames are the backend). *)
Theorem call_leaves_timer_pending s this args t :
  let s' := snd (debounced c this args t s) in
  fst (pending s') = true
  /\ (timerId s = None ->
      timerId s' = Some (next_handle s)
      /\ In (Timer (next_handle s)
               (if useRAF c then Frame else Timeout (Num (wait c))) t)
            (timers s')).
Proof.
  destruct s as [la lth r0 tid lct lit ts nh inv]. cbn zeta. split.
  - run_ops. cases; reflexivity.
  - cbn. intros ->. run_ops.
    cases; split; try reflexivity; auto using in_or_app, in_eq.
Qed.

(** What a wrapper call or [flush] returns is the cached result as it
    stands when the operation is over: when the operation executed the
    action, what that execution returned, which is cached from then on;
    when it executed nothing, the result cached before, which stays. *)
Theorem returns_cached_result s this args t :
  let returns (r : option Res) (s' : state Args Ctx Res) :=
    r = result s'
    /\ ((invocations s' = invocations s /\ result s' = result s)
        \/ (exists th a,
              invocations s' = invocations s ++ [(t, th, a)]
              /\ result s' = Some (func c th a))) in
  returns (fst (debounced c this args t s)) (snd (debounced c this args t s))
  /\ returns (fst (flush c t s)) (snd (flush c t s)).
Proof.
  destruct s as [la lth r0 tid lct lit ts nh inv]. cbn zeta.
  split; run_ops; cases;
    (split; [reflexivity |]);
    first [ left; split; reflexivity
          | right; eexists _, _; split; reflexivity ].
Qed.

Lemma last_returned_step s e :
  result s = last_returned c s ->
  result (step c s e) = last_returned c (step c s e).
Proof.
  unfold last_returned.
  destruct s as [la lth r0 tid lct lit ts nh inv]. cbn. intros H.
  destruct e as [this args t | h t | | t |]; run_ops; try unfold live;
    cases; rewrite ?map_app; cbn [map]; rewrite ?last_last; cbn; auto.
Qed.

(** In every reachable state the cached result is what the action
    returned at its latest execution, and is undefined as long as it was
    never executed. *)
Theorem result_is_last_returned s :
  reachable c s -> result s = last_returned c s.
Proof.
  revert s. apply reachable_invariant.
  - reflexivity.
  - intros s e _. apply last_returned_step.
Qed.

(** *** What is executed, and when not *)

Lemma applied_to_arguments_step s e :
  forallb applied_to_arguments (invocations s) = true ->
  forallb applied_to_arguments (invocations (step c s e)) = true.
Proof.
  destruct s as [la lth r0 tid lct lit ts nh inv]. cbn. intros Hall.
  destruct e as [this args t | h t | | t |]; run_ops; try unfold live;
    cases; rewrite ?forallb_app; cbn; rewrite ?Hall; auto.
  all: destruct la; try reflexivity;
    match goal with
    | E : _ && is_some None = true |- _ =>
        rewrite andb_false_r in E; discriminate E
    end.
Qed.

(** In every reachable state the action has only ever been executed
    with the arguments of a wrapper call: it is never applied while no
    arguments are recorded. *)
Theorem executions_have_arguments s :
  reachable c s -> forallb applied_to_arguments (invocations s) = true.
Proof.
  revert s. apply reachable_invariant.
  - reflexivity.
  - intros s e _. apply applied_to_arguments_step.
Qed.

Lemma no_pending_call_step s e :
  lastArgs s = None -> is_call e = false ->
  lastArgs (step c s e) = None /\ invocations (step c s e) = invocations s.
Proof.
  destruct s as [la lth r0 tid lct lit ts nh inv]. cbn. intros -> Hcall.
  destruct e as [this args t | h t | | t |]; try discriminate Hcall;
    run_ops; try unfold live; cases; auto.
  all: match goal with
       | E : _ && false = true |- _ =>
           rewrite andb_false_r in E; discriminate E
       end.
Qed.

(** Once the pending call is gone, executed or discarded, nothing but a
    new wrapper call makes the action run again: no timer that fires,
    however late or stale, no [flush] and no [cancel]. *)
Theorem no_execution_without_pending_call (es : list (event Args Ctx)) s :
  lastArgs s = None ->
  forallb (fun e => negb (is_call e)) es = true ->
  invocations (run c es s) = invocations s /\ lastArgs (run c es s) = None.
Proof.
  revert s. induction es as [| e es IH]; intros s Hla Hes.
  - split; [reflexivity | assumption].
  - cbn in Hes. apply andb_prop in Hes as [He Hes].
    apply negb_true_iff in He.
    destruct (no_pending_call_step s e Hla He) as [Hla' Hinv'].
    destruct (IH _ Hla' Hes) as [Hinv'' Hla''].
    change (run c (e :: es) s) with (run c es (step c s e)).
    split; [congruence | assumption].
Qed.

(** Without [leading] and without [maxWait] a wrapper call never
    executes the action itself: it returns the result cached before. *)
Theorem plain_call_defers s this args t :
  leading c = false -> maxing c = false ->
  let s' := snd (debounced c this args t s) in
  invocations s' = invocations s
  /\ result s' = result s
  /\ fst (debounced c this args t s) = result s
  /\ lastArgs s' = Some args /\ lastThis s' = Some this.
Proof.
  intros Hl Hm. destruct s as [la lth r0 tid lct lit ts nh inv].
  run_ops. rewrite Hl, Hm. cases; repeat split; reflexivity.
Qed.

(** With [leading] and [trailing] both disabled and no [maxWait], the
    action is never executed, whatever is called and whenever timers
    fire. *)
Theorem never_executes (es : list (event Args Ctx)) s :
  leading c = false -> trailing c = false -> maxing c = false ->
  invocations (run c es s) = invocations s.
Proof.
  intros Hl Ht Hm. revert s.
  induction es as [| e es IH]; intros s; [reflexivity |].
  change (run c (e :: es) s) with (run c es (step c s e)).
  rewrite IH.
  destruct s as [la lth r0 tid lct lit ts nh inv].
  destruct e as [this args t | h t | | t |]; run_ops; try unfold live;
    rewrite ?Hl, ?Ht, ?Hm; cases; try reflexivity;
    repeat match goal with
    | E : context [leading c] |- _ => rewrite Hl in E
    | E : context [trailing c] |- _ => rewrite Ht in E
    | E : context [maxing c] |- _ => rewrite Hm in E
    end; discriminate.
Qed.

(** *** Operations in sequence *)

(** With [trailing] enabled, a wrapper call followed by [flush()]
    executes the action exactly once with the arguments of that call, at
    the call or at the flush, and [flush()] returns the result of that
    execution and leaves no timer handle. *)
Theorem call_then_flush s this args t t' :
  trailing c = true ->
  let s1 := snd (debounced c this args t s) in
  let s2 := snd (flush c t' s1) in
  fst (flush c t' s1) = Some (func c (Some this) (Some args))
  /\ (invocations s2 = invocations s ++ [(t, Some this, Some args)]
      \/ invocations s2 = invocations s ++ [(t', Some this, Some args)])
  /\ timerId s2 = None /\ lastArgs s2 = None.
Proof.
  intros Ht. destruct s as [la lth r0 tid lct lit ts nh inv].
  run_ops.
  cases;
    repeat match goal with
    | E : context [trailing c] |- _ => rewrite Ht in E; cbn in E
    end;
    try discriminate; auto.
Qed.

(** A second [flush()] right after a first changes nothing and returns
    what the first returned. *)
Theorem flush_twice s t t' :
  flush c t' (snd (flush c t s)) = (fst (flush c t s), snd (flush c t s)).
Proof.
  destruct s as [la lth r0 tid lct lit ts nh inv].
  destruct tid, (trailing c) eqn:Ht, la; run_ops; rewrite ?Ht; reflexivity.
Qed.


(** *** The remaining wait *)

(** In a controller that [debounce] built, a timer that is started again
    is given a delay that is positive and at most [wait], and that, when
    [maxWait] is configured, ends no later than [maxWait] after
    [lastInvokeTime]. *)
Theorem remainingWait_bounds s t :
  constructed c ->
  shouldInvoke c s t = false ->
  exists rem,
    remainingWait c s t = Num rem
    /\ 0 < rem <= wait c
    /\ (forall m, maxing c = true -> maxWait c = Some m ->
        t + rem <= lastInvokeTime s + m).
Proof.
  intros Hc Hinv. destruct (constructed_wf Hc) as (_ & Hmax & _).
  unfold shouldInvoke in Hinv. unfold remainingWait.
  destruct (lastCallTime s) as [lc |]; [| discriminate Hinv].
  cbn in Hinv |- *.
  apply orb_false_iff in Hinv as [Hinv Hm].
  apply orb_false_iff in Hinv as [H1 H2].
  apply Z.leb_gt in H1. apply Z.ltb_ge in H2.
  destruct (maxing c) eqn:Emax.
  - destruct Hmax as (m & Em & Hle); [reflexivity |].
    rewrite Em in Hm |- *. cbn in Hm |- *. apply Z.leb_gt in Hm.
    eexists. split; [reflexivity |]. split; [lia |].
    intros m' _ E. injection E as <-. lia.
  - eexists. split; [reflexivity |]. split; [lia |].
    intros m' E. discriminate E.
Qed.

(** *** The backend *)

(** Frames are the backend exactly when the host has them and [wait] is
    falsy without being the number zero, and [wait] is then zero: so with
    a [wait] left out, or the number [NaN], when the host has frames; a
    number other than [NaN] given for [wait], zero included, always
    selects delays, as does a host without frames. *)
Theorem frames_only_without_wait (stn : string -> num)
  (otn : value (action Args Ctx Res) -> exn + num) (raf : bool)
  (fv wv ov : value (action Args Ctx Res)) (c' : config Args Ctx Res) :
  debounce stn otn raf fv wv ov = inr c' ->
  (useRAF c' = true <->
   raf = true /\ ToBoolean wv = false /\ wv <> JNumber (Num 0))
  /\ (useRAF c' = true -> wait c' = 0)
  /\ (forall z, wv = JNumber (Num z) -> useRAF c' = false)
  /\ (wv = JNumber NaN \/ wv = JUndefined -> useRAF c' = raf)
  /\ (raf = false -> useRAF c' = false).
Proof.
  intros H. unfold debounce in H.
  destruct fv; try discriminate H.
  destruct (ToNumber stn otn wv) as [e' | w] eqn:Hw; cbn in H;
    try discriminate H.
  assert (Hu : useRAF c' = negb (ToBoolean wv) && strict_neq_zero wv && raf
               /\ wait c' = or_zero w).
  { destruct (isObject ov); [destruct (has "maxWait" ov) |].
    - destruct (ToNumber stn otn (get "maxWait" ov)); cbn in H;
        try discriminate H.
      injection H as <-. split; reflexivity.
    - cbn in H. injection H as <-. split; reflexivity.
    - injection H as <-. split; reflexivity. }
  destruct Hu as [Hu Hwait]. rewrite Hu, Hwait.
  assert (Hstrict : strict_neq_zero wv = true <-> wv <> JNumber (Num 0)).
  { destruct wv as [| | | [| [| |]] | | | | |]; cbn;
      split; try congruence; try discriminate; auto. }
  split; [| split; [| split; [| split]]].
  - rewrite !andb_true_iff, negb_true_iff, Hstrict. tauto.
  - intros Hon. apply andb_prop in Hon as [Hon _].
    apply andb_prop in Hon as [Hfalsy _]. apply negb_true_iff in Hfalsy.
    eapply falsy_converts_to_zero; eassumption.
  - intros z ->. cbn. destruct z; reflexivity.
  - intros [-> | ->]; reflexivity.
  - intros ->. apply andb_false_r.
Qed.

(** *** Bursts under any options *)

Section Edges.

Variable frame : Z.

Hypothesis delays : useRAF c = false.
Hypothesis wait_not_negative : 0 <= wait c.
Hypothesis maxWait_covers_wait :
  maxing c = true -> exists m, maxWait c = Some m /\ wait c <= m.

Lemma horizon_cases t1 tc :
  (maxing c = false /\ horizon c t1 tc = tc + wait c)
  \/ (exists m, maxing c = true /\ maxWait c = Some m /\ wait c <= m
               /\ horizon c t1 tc = Z.min (tc + wait c) (t1 + m)).
Proof.
  unfold horizon. destruct (maxing c) eqn:Hm.
  - right. destruct maxWait_covers_wait as (m & Em & Hle); [reflexivity |].
    exists m. rewrite Em. auto.
  - left. auto.
Qed.

Lemma shouldInvoke_armed s t t1 tc :
  lastCallTime s = Some tc -> lastInvokeTime s = t1 -> tc <= t ->
  shouldInvoke c s t = (horizon c t1 tc <=? t).
Proof.
  intros Hlc Hli Hle. rewrite (shouldInvoke_some s t tc Hlc), Hli.
  replace (t - tc <? 0) with false by (symmetry; apply Z.ltb_ge; lia).
  rewrite orb_false_r.
  destruct (horizon_cases t1 tc) as [[Hm ->] | (m & Hm & Em & Hwm & ->)];
    rewrite Hm; cbn.
  - rewrite orb_false_r. apply eq_iff_eq_true.
    rewrite !Z.leb_le. lia.
  - rewrite Em. cbn. apply eq_iff_eq_true.
    rewrite orb_true_iff, !Z.leb_le. lia.
Qed.

Lemma remainingWait_armed s t t1 tc :
  lastCallTime s = Some tc -> lastInvokeTime s = t1 ->
  remainingWait c s t = Num (horizon c t1 tc - t).
Proof.
  intros Hlc Hli. unfold remainingWait. rewrite Hlc, Hli.
  destruct (horizon_cases t1 tc) as [[Hm ->] | (m & Hm & Em & Hwm & ->)];
    rewrite Hm; cbn.
  - f_equal. lia.
  - rewrite Em. cbn. f_equal. lia.
Qed.

Lemma horizon_start t : horizon c t t = t + wait c.
Proof.
  destruct (horizon_cases t t) as [[_ ->] | (m & _ & _ & Hwm & ->)]; lia.
Qed.

Lemma horizon_mono t1 tc tc' :
  tc <= tc' -> horizon c t1 tc <= horizon c t1 tc'.
Proof.
  intros H.
  destruct (horizon_cases t1 tc) as [[Hm ->] | (m & Hm & Em & _ & ->)];
    destruct (horizon_cases t1 tc') as [[Hm' ->] | (m' & Hm' & Em' & _ & ->)];
    try congruence; try lia.
  rewrite Em in Em'. injection Em' as <-. lia.
Qed.

(** The first call of a burst, on the leading edge. *)
Lemma leading_edge_arms s this args t :
  idle s -> shouldInvoke c s t = true ->
  exists tm,
    armed c frame (invocations s ++ leading_execution c (this, args, t))
      (if leading c then None else Some (this, args)) t t tm
      (snd (debounced c this args t s)).
Proof.
  destruct s as [la lth r0 tid lct lit ts nh inv].
  intros [Hid Hts] Hinv. cbn in Hid, Hts. subst tid ts.
  exists (Timer nh (Timeout (Num (wait c))) t).
  unfold armed, leading_execution. run_ops. rewrite Hinv. simp.
  rewrite delays. simp. rewrite horizon_start.
  destruct (leading c); simp; rewrite ?app_nil_r;
    repeat split; try reflexivity; unfold due; cbn; lia.
Qed.

(** A later call of the burst, made before its horizon. *)
Lemma call_before_horizon log pend s t1 tc tm this args t :
  armed c frame log pend t1 tc tm s ->
  tc <= t < horizon c t1 tc ->
  t < due frame tm ->
  armed c frame log (Some (this, args)) t1 t tm
    (snd (debounced c this args t s)).
Proof.
  destruct s as [la lth r0 tid lct lit ts nh inv].
  intros (Hla & Hlt & Hlc & Hli & Hinv & Hts & Hid & Hdue) Ht Hlate.
  cbn in Hla, Hlt, Hlc, Hli, Hinv, Hts, Hid. subst la lth lct lit inv ts tid.
  pose proof (horizon_mono t1 tc t (proj1 Ht)) as Hmono.
  unfold armed. run_ops.
  rewrite (shouldInvoke_armed _ t t1 tc) by (reflexivity || lia).
  replace (horizon c t1 tc <=? t) with false
    by (symmetry; apply Z.leb_gt; lia).
  simp. repeat split; try reflexivity; lia.
Qed.

(** A timer that fires before the horizon is started again, for what
    remains. *)
Lemma timer_before_horizon log pend s t1 tc tm :
  armed c frame log pend t1 tc tm s ->
  due frame tm < horizon c t1 tc ->
  exists tm',
    armed c frame log pend t1 tc tm'
      (snd (fire c (handle tm) (due frame tm) s))
    /\ due frame tm' = horizon c t1 tc.
Proof.
  intros (Hla & Hlt & Hlc & Hli & Hinv & Hts & Hid & Hdue) Hearly.
  rewrite (fire_own_timer s tm _ Hts).
  destruct s as [la lth r0 tid lct lit ts nh inv].
  cbn in Hla, Hlt, Hlc, Hli, Hinv, Hts, Hid. subst la lth lct lit inv ts tid.
  set (d := due frame tm) in *.
  exists (Timer nh (Timeout (Num (horizon c t1 tc - d))) d).
  unfold armed. run_ops.
  rewrite (shouldInvoke_armed _ d t1 tc) by (reflexivity || lia).
  replace (horizon c t1 tc <=? d) with false
    by (symmetry; apply Z.leb_gt; lia).
  simp. rewrite delays. simp.
  rewrite (remainingWait_armed _ d t1 tc) by reflexivity.
  unfold due at 1 2 3. cbn [kind set_at or_zero].
  repeat split; try reflexivity; lia.
Qed.

(** The timer that fires at the horizon executes what is pending, when
    [trailing] is enabled, and leaves nothing scheduled. *)
Lemma timer_at_horizon log pend s t1 tc tm :
  armed c frame log pend t1 tc tm s ->
  due frame tm = horizon c t1 tc ->
  let s' := snd (fire c (handle tm) (due frame tm) s) in
  invocations s' = log ++ trailing_execution c (horizon c t1 tc) pend
  /\ idle s'.
Proof.
  intros (Hla & Hlt & Hlc & Hli & Hinv & Hts & Hid & Hdue) Hsettled.
  rewrite (fire_own_timer s tm _ Hts).
  destruct s as [la lth r0 tid lct lit ts nh inv].
  cbn in Hla, Hlt, Hlc, Hli, Hinv, Hts, Hid. subst la lth lct lit inv ts tid.
  rewrite Hsettled. unfold idle, trailing_execution. run_ops.
  rewrite (shouldInvoke_armed _ _ t1 tc) by (reflexivity || lia).
  rewrite Z.leb_refl. simp.
  destruct pend as [[this args] |], (trailing c); simp;
    rewrite ?app_nil_r; repeat split; reflexivity.
Qed.

Lemma settle_nothing fuel limit s :
  timers s = [] -> settle c frame fuel limit s = Some s.
Proof.
  intros H. destruct fuel; cbn; rewrite H; reflexivity.
Qed.

Lemma settle_later fuel t s tm :
  timers s = [tm] -> t < due frame tm ->
  settle c frame fuel (Some t) s = Some s.
Proof.
  intros H Hlate.
  destruct fuel; cbn -[due]; rewrite H; cbn -[due];
    (replace (due frame tm <=? t) with false
       by (symmetry; apply Z.leb_gt; lia)); reflexivity.
Qed.

Lemma settle_one fuel limit s tm :
  timers s = [tm] -> due_by frame limit tm = true ->
  settle c frame (S fuel) limit s =
    settle c frame fuel limit (snd (fire c (handle tm) (due frame tm) s)).
Proof.
  intros H Hdue. cbn -[due due_by fire]. rewrite H. cbn -[due due_by fire].
  rewrite Hdue. reflexivity.
Qed.

Lemma settle_up_to_call fuel log pend s t1 tc tm t :
  armed c frame log pend t1 tc tm s ->
  tc <= t < horizon c t1 tc ->
  (1 <= fuel)%nat ->
  exists s' tm',
    settle c frame fuel (Some t) s = Some s'
    /\ armed c frame log pend t1 tc tm' s'
    /\ t < due frame tm'.
Proof.
  intros Ha Ht Hfuel.
  pose proof Ha as (_ & _ & _ & _ & _ & Hts & _ & Hdue).
  destruct (Z.leb_spec (due frame tm) t) as [Hle | Hgt].
  - destruct fuel as [| fuel]; [lia |].
    destruct (timer_before_horizon log pend s t1 tc tm Ha)
      as (tm' & Ha' & Hd'); [lia |].
    pose proof Ha' as (_ & _ & _ & _ & _ & Hts' & _).
    eexists _, tm'. split; [| split; [exact Ha' | lia]].
    rewrite (settle_one fuel (Some t) s tm Hts)
      by (apply Z.leb_le; exact Hle).
    apply settle_later with (tm := tm'); [exact Hts' | lia].
  - exists s, tm. split; [| split; [exact Ha | exact Hgt]].
    apply settle_later with (tm := tm); assumption.
Qed.

Lemma settle_to_the_end fuel log pend s t1 tc tm :
  armed c frame log pend t1 tc tm s ->
  (2 <= fuel)%nat ->
  exists s',
    settle c frame fuel None s = Some s'
    /\ invocations s' = log ++ trailing_execution c (horizon c t1 tc) pend
    /\ idle s'.
Proof.
  intros Ha Hfuel.
  assert (Hlast : forall f s0 tm0,
    armed c frame log pend t1 tc tm0 s0 ->
    due frame tm0 = horizon c t1 tc ->
    exists s',
      settle c frame (S f) None s0 = Some s'
      /\ invocations s' = log ++ trailing_execution c (horizon c t1 tc) pend
      /\ idle s').
  { intros f s0 tm0 Ha0 Hd0.
    pose proof Ha0 as (_ & _ & _ & _ & _ & Hts0 & _).
    destruct (timer_at_horizon log pend s0 t1 tc tm0 Ha0 Hd0)
      as (Hinv & Hidle).
    eexists. split; [| split; [exact Hinv | exact Hidle]].
    rewrite (settle_one f None s0 tm0 Hts0) by reflexivity.
    apply settle_nothing. apply Hidle. }
  pose proof Ha as (_ & _ & _ & _ & _ & Hts & _ & Hdue).
  destruct fuel as [| [| fuel]]; try lia.
  destruct (Z.eq_dec (due frame tm) (horizon c t1 tc)) as [Heq | Hne].
  - apply Hlast with (tm0 := tm); assumption.
  - destruct (timer_before_horizon log pend s t1 tc tm Ha)
      as (tm' & Ha' & Hd'); [lia |].
    rewrite (settle_one (S fuel) None s tm Hts) by reflexivity.
    apply Hlast with (tm0 := tm'); assumption.
Qed.

Lemma last_after {A : Type} (x d : A) (l : list A) :
  last (x :: l) d = last l x.
Proof.
  revert x d. induction l as [| y l IH]; intros x d; [reflexivity |].
  change (last (x :: y :: l) d) with (last (y :: l) d).
  rewrite (IH y d), (IH y x). reflexivity.
Qed.

Lemma armed_burst fuel t1 (rest : list (Ctx * Args * Z)) :
  (2 <= fuel)%nat ->
  forall log pend s cur tm,
    armed c frame log pend t1 (snd cur) tm s ->
    spaced (wait c) (cur :: rest) ->
    (forall m, maxing c = true -> maxWait c = Some m ->
               Forall (fun call => snd call < t1 + m) rest) ->
    exists s',
      run_burst c frame fuel rest s = Some s'
      /\ invocations s' =
           log ++ trailing_execution c
                    (horizon c t1 (snd (last rest cur)))
                    (final_pending pend cur rest)
      /\ idle s'.
Proof.
  intros Hfuel.
  induction rest as [| [[this' args'] t'] rest IH];
    intros log pend s [[this args] tc] tm Ha Hsp Hceil.
  - apply settle_to_the_end with (tm := tm); assumption.
  - destruct Hsp as [Hgap Hsp]. cbn [snd] in Ha.
    assert (Ht' : tc <= t' < horizon c t1 tc).
    { destruct (horizon_cases t1 tc) as [[_ ->] | (m & Hm & Em & _ & ->)];
        [lia |].
      specialize (Hceil m Hm Em). apply Forall_inv in Hceil.
      cbn in Hceil. lia. }
    destruct (settle_up_to_call fuel log pend s t1 tc tm t' Ha Ht')
      as (s1 & tm1 & Hsettle & Ha1 & Hlate); [lia |].
    cbn [run_burst]. rewrite Hsettle.
    destruct (IH log (Some (this', args'))
                (snd (debounced c this' args' t' s1))
                (this', args', t') tm1) as (s' & Hrun & Hinv & Hidle).
    + apply call_before_horizon with (pend := pend) (tc := tc); assumption.
    + exact Hsp.
    + intros m Hm Em. specialize (Hceil m Hm Em).
      apply Forall_inv_tail in Hceil. exact Hceil.
    + exists s'. split; [exact Hrun |]. split; [| exact Hidle].
      rewrite Hinv. rewrite last_after. f_equal. f_equal.
      unfold final_pending. rewrite last_after.
      destruct rest; reflexivity.
Qed.

(** Under any options, with timers that are delays and fire when they
    are due: a burst that starts on the leading edge in a controller with
    nothing scheduled, and whose calls come before [maxWait] has run out,
    executes what [burst_executions] lists, and nothing is left scheduled
    when it has settled. *)
Lemma burst_law fuel s first rest :
  idle s ->
  shouldInvoke c s (snd first) = true ->
  spaced (wait c) (first :: rest) ->
  (forall m, maxing c = true -> maxWait c = Some m ->
             Forall (fun call => snd call < snd first + m) rest) ->
  (2 <= fuel)%nat ->
  exists s',
    run_burst c frame fuel (first :: rest) s = Some s'
    /\ invocations s' = invocations s ++ burst_executions c first rest
    /\ idle s'.
Proof.
  intros Hidle Hinv Hsp Hceil Hfuel.
  destruct first as [[this1 args1] t1]. cbn [snd] in *.
  cbn [run_burst]. rewrite settle_nothing by apply Hidle.
  destruct (leading_edge_arms s this1 args1 t1 Hidle Hinv) as (tm & Ha).
  destruct (armed_burst fuel t1 rest Hfuel _ _ _ (this1, args1, t1) tm
              Ha Hsp Hceil) as (s' & Hrun & Hlog & Hidle').
  exists s'. split; [exact Hrun |]. split; [| exact Hidle'].
  rewrite Hlog. unfold burst_executions. rewrite app_assoc. reflexivity.
Qed.

End Edges.

Section Corollaries.

Variable frame : Z.

Hypothesis delays : useRAF c = false.
Hypothesis wait_not_negative : 0 <= wait c.

(** With [leading] enabled and [trailing] disabled, and no [maxWait], a
    burst is executed exactly once: its first call, with its arguments,
    at the time of that call. *)
Theorem leading_only_burst fuel s first rest :
  leading c = true -> trailing c = false -> maxing c = false ->
  idle s -> shouldInvoke c s (snd first) = true ->
  spaced (wait c) (first :: rest) ->
  (2 <= fuel)%nat ->
  exists s',
    run_burst c frame fuel (first :: rest) s = Some s'
    /\ invocations s' =
         invocations s
           ++ [(snd first, Some (fst (fst first)), Some (snd (fst first)))]
    /\ idle s'.
Proof.
  intros Hl Ht Hm Hidle Hinv Hsp Hfuel.
  destruct (burst_law frame delays wait_not_negative) with
    (fuel := fuel) (s := s) (first := first) (rest := rest)
    as (s' & Hrun & Hlog & Hidle'); try assumption.
  - intros E. congruence.
  - intros m E. congruence.
  - exists s'. split; [exact Hrun |]. split; [| exact Hidle'].
    rewrite Hlog. unfold burst_executions, leading_execution,
      trailing_execution. rewrite Hl, Ht.
    destruct (final_pending None first rest) as [[? ?] |];
      rewrite app_nil_r; reflexivity.
Qed.

(** With [leading] and [trailing] both enabled, and no [maxWait], a
    burst of two calls or more is executed twice: its first call at once,
    and its last call [wait] after it was made. *)
Theorem both_edges_burst fuel s first second more this args t :
  leading c = true -> trailing c = true -> maxing c = false ->
  idle s -> shouldInvoke c s (snd first) = true ->
  spaced (wait c) (first :: second :: more) ->
  last more second = (this, args, t) ->
  (2 <= fuel)%nat ->
  exists s',
    run_burst c frame fuel (first :: second :: more) s = Some s'
    /\ invocations s' =
         invocations s
           ++ [(snd first, Some (fst (fst first)), Some (snd (fst first)));
               (t + wait c, Some this, Some args)]
    /\ idle s'.
Proof.
  intros Hl Ht Hm Hidle Hinv Hsp Hlast Hfuel.
  destruct (burst_law frame delays wait_not_negative) with
    (fuel := fuel) (s := s) (first := first) (rest := second :: more)
    as (s' & Hrun & Hlog & Hidle'); try assumption.
  - intros E. congruence.
  - intros m E. congruence.
  - exists s'. split; [exact Hrun |]. split; [| exact Hidle'].
    rewrite Hlog. unfold burst_executions, leading_execution,
      trailing_execution, final_pending, horizon.
    rewrite Hl, Ht, Hm, last_after, Hlast. reflexivity.
Qed.

(** With [leading] enabled, a single call is executed once only, at the
    time it is made, whether [trailing] is enabled or not: the timer that
    fires [wait] later finds nothing pending. *)
Theorem leading_single_call fuel s this args t :
  leading c = true -> maxing c = false ->
  idle s -> shouldInvoke c s t = true ->
  (2 <= fuel)%nat ->
  exists s',
    run_burst c frame fuel [(this, args, t)] s = Some s'
    /\ invocations s' = invocations s ++ [(t, Some this, Some args)]
    /\ idle s'.
Proof.
  intros Hl Hm Hidle Hinv Hfuel.
  destruct (burst_law frame delays wait_not_negative) with
    (fuel := fuel) (s := s) (first := (this, args, t))
    (rest := @nil (Ctx * Args * Z))
    as (s' & Hrun & Hlog & Hidle'); try assumption.
  - intros E. congruence.
  - exact I.
  - intros m E. congruence.
  - exists s'. split; [exact Hrun |]. split; [| exact Hidle'].
    rewrite Hlog. unfold burst_executions, leading_execution,
      trailing_execution, final_pending.
    rewrite Hl. reflexivity.
Qed.

(** With [maxWait] and otherwise default options, a burst whose calls
    all come before [maxWait] has run out since its first call is
    executed exactly once, with the arguments of its last call: [wait]
    after that call, or [maxWait] after the first call when that comes
    first. *)
Theorem maxWait_caps_deferral fuel s first rest m this args t :
  leading c = false -> trailing c = true ->
  maxing c = true -> maxWait c = Some m -> wait c <= m ->
  idle s -> shouldInvoke c s (snd first) = true ->
  spaced (wait c) (first :: rest) ->
  Forall (fun call => snd call < snd first + m) rest ->
  last rest first = (this, args, t) ->
  (2 <= fuel)%nat ->
  exists s',
    run_burst c frame fuel (first :: rest) s = Some s'
    /\ invocations s' =
         invocations s
           ++ [(Z.min (t + wait c) (snd first + m), Some this, Some args)]
    /\ idle s'.
Proof.
  intros Hl Ht Hm Em Hwm Hidle Hinv Hsp Hceil Hlast Hfuel.
  destruct (burst_law frame delays wait_not_negative) with
    (fuel := fuel) (s := s) (first := first) (rest := rest)
    as (s' & Hrun & Hlog & Hidle'); try assumption.
  - intros _. exists m. auto.
  - intros m' _ E. rewrite Em in E. injection E as <-. exact Hceil.
  - exists s'. split; [exact Hrun |]. split; [| exact Hidle'].
    rewrite Hlog. unfold burst_executions, leading_execution,
      trailing_execution, final_pending, horizon.
    rewrite Hl, Ht, Hm, Em, Hlast. cbn.
    destruct rest as [| x rest'].
    + cbn in Hlast. subst first. reflexivity.
    + reflexivity.
Qed.

End Corollaries.

End Properties.

(** ** The properties on the example controllers *)

Import Examples.

Lemma plain_constructed : constructed plain.
Proof.
  exists no_numeral, plain_objects, false, (JFunction plus_ten), (JNumber (Num 10)), JUndefined.
  reflexivity.
Qed.

Lemma capped_constructed : constructed capped.
Proof.
  exists no_numeral, plain_objects, false, (JFunction plus_ten), (JNumber (Num 10)),
    (JObject [("maxWait"%string, JNumber (Num 10))]).
  reflexivity.
Qed.

(** C1. Two calls to [debounce(f, 10, {maxWait: 10})], at times 0 and
    10, the second before the callback of the first timer has run: the
    second call starts a timer without clearing the first, and both are
    live; so it does not hold that at most one timer is live in every
    reachable state. *)
Theorem tight_call_leaves_two_timers :
  let s := run capped [Call 7%nat 1%nat 0; Call 7%nat 2%nat 10] init in
  reachable capped s
  /\ timers s =
       [Timer 0 (Timeout (Num 10)) 0; Timer 1 (Timeout (Num 10)) 10]
  /\ timerId s = Some 1%nat
  /\ live 0 s = true /\ live 1 s = true
  /\ ~ (forall s', reachable capped s' -> (List.length (timers s') <= 1)%nat).
Proof.
  cbn zeta.
  assert (Hr : reachable capped
                 (run capped [Call 7%nat 1%nat 0; Call 7%nat 2%nat 10] init))
    by (eexists; reflexivity).
  repeat split; try assumption; try reflexivity.
  intros H. specialize (H _ Hr). vm_compute in H. lia.
Qed.

(** The other way to two timers: [flush()] forgets the controller's
    timer without cancelling it, and the next call starts another. *)
Lemma flush_leaves_timer_live :
  let s := run plain [Call 7%nat 1%nat 0; Flush 1; Call 7%nat 2%nat 2] init in
  timers s = [Timer 0 (Timeout (Num 10)) 0; Timer 1 (Timeout (Num 10)) 2]
  /\ timerId s = Some 1%nat
  /\ invocations s = [(1, Some 7%nat, Some 1%nat)].
Proof.
  repeat split; reflexivity.
Qed.

(** With frames as the backend too. *)
Lemma flush_leaves_frame_live :
  let s := run framed [Call 7%nat 1%nat 0; Flush 1; Call 7%nat 2%nat 2] init in
  timers s = [Timer 0 Frame 0; Timer 1 Frame 2] /\ timerId s = Some 1%nat.
Proof.
  split; reflexivity.
Qed.

(** C9. The second of two calls to [debounce(f, 10, {maxWait: 10})], at
    times 0 and 10 with no timer callback run in between, finds
    [shouldInvoke] true, a timer scheduled and [maxWait] configured: it
    executes the action at once with its own arguments and returns that
    result, and it starts a timer for a fresh [wait], but the timer that
    was scheduled is not rescheduled: it is still live, due when it was. *)
Theorem tight_call_keeps_old_timer :
  let s' := snd (debounced capped 8%nat 2%nat 10 capped_armed) in
  shouldInvoke capped capped_armed 10 = true
  /\ timerId capped_armed = Some 0%nat
  /\ timers capped_armed = [Timer 0 (Timeout (Num 10)) 0]
  /\ fst (debounced capped 8%nat 2%nat 10 capped_armed) = Some 12%nat
  /\ invocations s' = [(10, Some 8%nat, Some 2%nat)]
  /\ timerId s' = Some 1%nat
  /\ timers s' =
       [Timer 0 (Timeout (Num 10)) 0; Timer 1 (Timeout (Num 10)) 10]
  /\ live 0 s' = true.
Proof.
  vm_compute. repeat split; reflexivity.
Qed.

(** With frames as the backend the same call does reschedule: the frame
    callback that was scheduled is cancelled, and one is requested. *)
Lemma tight_call_under_frames_reschedules :
  let s := run framed_capped [Call 7%nat 1%nat 0] init in
  let s' := snd (debounced framed_capped 8%nat 2%nat 10 s) in
  shouldInvoke framed_capped s 10 = true
  /\ timers s = [Timer 0 Frame 0]
  /\ timers s' = [Timer 1 Frame 10]
  /\ timerId s' = Some 1%nat
  /\ invocations s' = [(10, Some 8%nat, Some 2%nat)].
Proof.
  vm_compute. repeat split; reflexivity.
Qed.

(** C2, refuted as stated: with [maxWait] 15, eight milliseconds into a
    second burst the last execution is 28 milliseconds old, and
    [shouldInvoke] is false: the leading edge of the burst has moved
    [lastInvokeTime] to the start of the burst. *)
Lemma maxWait_counts_from_leading_edge :
  ~ (forall (s : state nat nat nat) (t : Z),
       reachable ceiling s ->
       (shouldInvoke ceiling s t = true <->
        shouldInvoke_as_specified ceiling s t)).
Proof.
  intros H.
  assert (Hr : reachable ceiling second_burst)
    by (exists [Call 7%nat 1%nat 0; Fire 0 10; Call 7%nat 2%nat 30];
        reflexivity).
  destruct (H second_burst 38 Hr) as [_ H2].
  assert (E : shouldInvoke ceiling second_burst 38 = true).
  { apply H2. right; right; right. split; [reflexivity |].
    exists 15, 10.
    split; [reflexivity |]. split; [vm_compute; reflexivity | lia]. }
  vm_compute in E. discriminate E.
Qed.

(** C8, refuted as stated: in the same burst, after a call at time 38,
    the timer that fires at time 40 is started again for 5 milliseconds,
    [maxWait] less the time since the start of the burst, where the time
    since the last execution would give a negative delay. *)
Lemma restart_counts_from_leading_edge :
  ~ (forall (s : state nat nat nat) (h : nat) (t rem : Z),
       reachable ceiling s -> live h s = true ->
       shouldInvoke ceiling s t = false ->
       remainingWait_as_specified ceiling s t rem ->
       In (Timer (next_handle s) (Timeout (Num rem)) t)
          (timers (step ceiling s (Fire h t)))).
Proof.
  intros H.
  assert (Hr : reachable ceiling second_burst_on).
  { exists [Call 7%nat 1%nat 0; Fire 0 10; Call 7%nat 2%nat 30;
            Call 7%nat 3%nat 38].
    reflexivity. }
  assert (Hlive : live 1 second_burst_on = true)
    by (vm_compute; reflexivity).
  assert (Hinv : shouldInvoke ceiling second_burst_on 40 = false)
    by (vm_compute; reflexivity).
  assert (Hspec : remainingWait_as_specified ceiling second_burst_on 40 (-15)).
  { exists 38. split; [vm_compute; reflexivity |].
    exists 15, 10.
    split; [reflexivity |]. split; vm_compute; reflexivity. }
  specialize (H second_burst_on 1%nat 40 (-15) Hr Hlive Hinv Hspec).
  vm_compute in H. destruct H as [E | []]. discriminate E.
Qed.

(** C4, refuted as stated: the first call to [debounce(f, 10)], at time
    5, executes nothing and moves [lastInvokeTime] from 0 to 5. *)
Lemma lastInvokeTime_moves_without_execution :
  ~ (forall (s : state nat nat nat) (e : event nat nat),
       reachable plain s ->
       invocations (step plain s e) = invocations s ->
       lastInvokeTime (step plain s e) = lastInvokeTime s).
Proof.
  intros H.
  specialize
    (H init (Call 7%nat 1%nat 5) (reachable_init nat nat nat plain) eq_refl).
  discriminate H.
Qed.

(** [cancel()] moves it backward. *)
Lemma cancel_resets_lastInvokeTime :
  let s := run plain [Call 7%nat 1%nat 5] init in
  lastInvokeTime s = 5 /\ lastInvokeTime (step plain s Cancel) = 0.
Proof.
  split; reflexivity.
Qed.

(** C6, refuted as stated: after the leading execution of
    [debounce(f, 10, {leading: true})] a timer is scheduled, and [flush()]
    executes nothing. *)
Lemma flush_pending_without_execution :
  ~ (forall (s : state nat nat nat) (t : Z),
       reachable eager s -> timerId s <> None ->
       exists this args,
         invocations (snd (flush eager t s)) =
           invocations s ++ [(t, this, args)]).
Proof.
  intros H.
  destruct (H eager_armed 1) as (this & args & E).
  - exists [Call 7%nat 1%nat 0]. reflexivity.
  - discriminate.
  - vm_compute in E. discriminate E.
Qed.

(** Nor does it when [trailing] is disabled. *)
Lemma flush_without_trailing :
  let s := run no_trailing [Call 7%nat 1%nat 0] init in
  timerId s = Some 0%nat /\ lastArgs s = Some 1%nat
  /\ invocations (snd (flush no_trailing 1 s)) = [].
Proof.
  repeat split; reflexivity.
Qed.


(** *** Instances *)

Lemma shouldInvoke_iff_witness :
  shouldInvoke plain plain_armed 10 = true
  /\ timerExpired plain 10 plain_armed = trailingEdge plain 10 plain_armed.
Proof.
  split.
  - apply (proj1 (shouldInvoke_iff nat nat nat plain plain_armed 10)).
    right; left. exists 0. split; [reflexivity | cbn; lia].
  - destruct (shouldInvoke_iff nat nat nat plain plain_armed 10)
      as (_ & _ & H & _).
    apply H. reflexivity.
Defined.


Lemma lastInvokeTime_changes_witness :
  lastInvokeTime plain_armed
  <= lastInvokeTime (step plain plain_armed (Fire 0 10)).
Proof.
  destruct (lastInvokeTime_changes nat nat nat plain plain_armed (Fire 0 10))
    as (_ & H & _).
  apply H.
  - discriminate.
  - intros t E. injection E as <-. cbn. lia.
Defined.

Lemma cancel_spec_witness :
  reachable plain plain_armed
  /\ live 0 (snd (cancel plain plain_armed)) = false.
Proof.
  assert (Hr : reachable plain plain_armed)
    by (exists [Call 7%nat 1%nat 0]; reflexivity).
  split; [exact Hr |].
  destruct (cancel_spec nat nat nat plain plain_armed)
    as (_ & _ & _ & _ & _ & _ & _ & _ & _ & H).
  apply H; [exact Hr | reflexivity].
Defined.

Lemma flush_spec_witness :
  timerId plain_armed <> None
  /\ fst (flush plain 1 plain_armed) = Some 11%nat.
Proof.
  split; [discriminate |].
  destruct (flush_spec nat nat nat plain plain_armed 1) as (_ & _ & H & _).
  apply H; [discriminate | reflexivity | discriminate].
Defined.


Lemma timerExpired_spec_witness :
  shouldInvoke plain plain_armed 10 = true
  /\ timerId (snd (timerExpired plain 10 plain_armed)) = None.
Proof.
  split; [reflexivity |].
  destruct (timerExpired_spec nat nat nat plain plain_armed 10) as [H _].
  - exact plain_constructed.
  - apply H. reflexivity.
Defined.

Lemma debounced_tight_loop_witness :
  shouldInvoke capped capped_armed 10 = true
  /\ fst (debounced capped 8%nat 2%nat 10 capped_armed) = Some 12%nat.
Proof.
  split; [reflexivity |].
  destruct
    (debounced_tight_loop nat nat nat capped capped_armed 8%nat 2%nat 10
       0%nat)
    as [H _]; [reflexivity | reflexivity | reflexivity |].
  exact H.
Defined.

(** *** Instances of the further properties *)

Lemma ceiling_constructed : constructed ceiling.
Proof.
  exists no_numeral, plain_objects, false, (JFunction plus_ten), (JNumber (Num 10)),
    (JObject [("maxWait"%string, JNumber (Num 15))]).
  reflexivity.
Qed.

Lemma call_leaves_timer_pending_witness :
  timerId (@init nat nat nat) = None
  /\ timerId (snd (debounced plain 7%nat 1%nat 0 init)) = Some 0%nat.
Proof.
  split; [reflexivity |].
  destruct (call_leaves_timer_pending nat nat nat plain init 7%nat 1%nat 0)
    as [_ H].
  destruct (H eq_refl) as [H1 _]. exact H1.
Defined.

Lemma result_is_last_returned_witness :
  result plain_settled = last_returned plain plain_settled.
Proof.
  apply (result_is_last_returned nat nat nat plain plain_settled).
  exists [Call 7%nat 1%nat 0; Fire 0 10]. reflexivity.
Defined.

Lemma executions_have_arguments_witness :
  forallb applied_to_arguments (invocations plain_settled) = true.
Proof.
  apply (executions_have_arguments nat nat nat plain plain_settled).
  exists [Call 7%nat 1%nat 0; Fire 0 10]. reflexivity.
Defined.

Lemma no_execution_without_pending_call_witness :
  lastArgs plain_flushed = None
  /\ invocations (run plain [Fire 0 10; Flush 11; Cancel] plain_flushed) =
       invocations plain_flushed.
Proof.
  split; [vm_compute; reflexivity |].
  destruct (no_execution_without_pending_call nat nat nat plain
              [Fire 0 10; Flush 11; Cancel] plain_flushed) as [H _].
  - vm_compute. reflexivity.
  - reflexivity.
  - exact H.
Defined.

Lemma plain_call_defers_witness :
  invocations (snd (debounced plain 7%nat 1%nat 0 init)) =
    invocations (@init nat nat nat).
Proof.
  destruct (plain_call_defers nat nat nat plain init 7%nat 1%nat 0
              eq_refl eq_refl) as [H _].
  exact H.
Defined.

Lemma never_executes_witness :
  invocations
    (run inert [Call 7%nat 1%nat 0; Fire 0 10; Call 7%nat 2%nat 30; Flush 31]
       init) =
    invocations (@init nat nat nat).
Proof.
  apply (never_executes nat nat nat inert); reflexivity.
Defined.

Lemma call_then_flush_witness :
  trailing plain = true
  /\ fst (flush plain 3 (snd (debounced plain 7%nat 1%nat 0 init))) =
       Some (func plain (Some 7%nat) (Some 1%nat)).
Proof.
  split; [reflexivity |].
  destruct (call_then_flush nat nat nat plain init 7%nat 1%nat 0 3 eq_refl)
    as [H _].
  exact H.
Defined.


Lemma remainingWait_bounds_witness :
  exists rem,
    remainingWait ceiling second_burst_on 40 = Num rem
    /\ 0 < rem <= wait ceiling
    /\ (forall m, maxing ceiling = true -> maxWait ceiling = Some m ->
        40 + rem <= lastInvokeTime second_burst_on + m).
Proof.
  apply (remainingWait_bounds nat nat nat ceiling second_burst_on 40).
  - exact ceiling_constructed.
  - vm_compute. reflexivity.
Defined.

Lemma frames_only_without_wait_witness :
  useRAF framed = true /\ wait framed = 0.
Proof.
  split; [reflexivity |].
  destruct (frames_only_without_wait nat nat nat no_numeral plain_objects true
              (JFunction plus_ten) JUndefined JUndefined framed eq_refl)
    as (_ & H & _).
  apply H. reflexivity.
Defined.

Lemma one_timer_without_flush_witness :
  (List.length
     (timers
        (run framed
           [Call 7%nat 1%nat 0; Call 7%nat 2%nat 3; Fire 0 16; Cancel]
           init)) <= 1)%nat.
Proof.
  apply (one_timer_without_flush nat nat nat framed).
  - left. reflexivity.
  - reflexivity.
Defined.

Lemma leading_only_burst_witness :
  exists s',
    run_burst leading_only 16 2
      [(7%nat, 1%nat, 0); (7%nat, 2%nat, 4); (7%nat, 3%nat, 13)] init = Some s'
    /\ invocations s' =
         invocations (@init nat nat nat) ++ [(0, Some 7%nat, Some 1%nat)]
    /\ idle s'.
Proof.
  apply (leading_only_burst nat nat nat leading_only 16).
  - reflexivity.
  - cbn. lia.
  - reflexivity.
  - reflexivity.
  - reflexivity.
  - split; reflexivity.
  - reflexivity.
  - cbn. lia.
  - lia.
Defined.

Lemma both_edges_burst_witness :
  exists s',
    run_burst eager 16 2
      [(7%nat, 1%nat, 0); (7%nat, 2%nat, 4); (7%nat, 3%nat, 13)] init = Some s'
    /\ invocations s' =
         invocations (@init nat nat nat)
           ++ [(0, Some 7%nat, Some 1%nat);
               (13 + wait eager, Some 7%nat, Some 3%nat)]
    /\ idle s'.
Proof.
  apply (both_edges_burst nat nat nat eager 16).
  - reflexivity.
  - cbn. lia.
  - reflexivity.
  - reflexivity.
  - reflexivity.
  - split; reflexivity.
  - reflexivity.
  - cbn. lia.
  - reflexivity.
  - lia.
Defined.

Lemma leading_single_call_witness :
  exists s',
    run_burst eager 16 2 [(7%nat, 1%nat, 0)] init = Some s'
    /\ invocations s' =
         invocations (@init nat nat nat) ++ [(0, Some 7%nat, Some 1%nat)]
    /\ idle s'.
Proof.
  apply (leading_single_call nat nat nat eager 16).
  - reflexivity.
  - cbn. lia.
  - reflexivity.
  - reflexivity.
  - split; reflexivity.
  - reflexivity.
  - lia.
Defined.

Lemma maxWait_caps_deferral_witness :
  exists s',
    run_burst ceiling 16 2
      [(7%nat, 1%nat, 0); (7%nat, 2%nat, 6); (7%nat, 3%nat, 12)] init = Some s'
    /\ invocations s' =
         invocations (@init nat nat nat)
           ++ [(Z.min (12 + wait ceiling) (0 + 15), Some 7%nat, Some 3%nat)]
    /\ idle s'.
Proof.
  apply (maxWait_caps_deferral nat nat nat ceiling 16).
  - reflexivity.
  - cbn. lia.
  - reflexivity.
  - reflexivity.
  - reflexivity.
  - reflexivity.
  - cbn. lia.
  - split; reflexivity.
  - reflexivity.
  - cbn. lia.
  - repeat constructor; cbn; lia.
  - reflexivity.
  - lia.
Defined.

End Debounce.
